(** * BYC: a lexer, parser and tree-walking interpreter (main.py)

    Shallow embedding of [Lexer], [Parser] and [Interpreter] of main.py and
    the properties of the language they implement.

    Conventions of the embedding.
    - A Python [str] is a [string]; a character is an [ascii], read as the
      code point of that number (code points below 256).
    - A Python [int] is a [Z]; a Python [float] is a binary64 number of
      [SpecFloat] (precision 53, maximal exponent 1024).
    - Token kinds and AST tags are Python strings and stay strings here.
    - Exceptions are values of [error]; a computation that can raise returns
      a [result]. *)

From Stdlib Require Import ZArith Lia List Bool Ascii String.
From Stdlib Require Import DecimalString DecimalN DecimalPos.
From Stdlib Require Import Floats.SpecFloat.
From stdpp Require Import base gmap strings.
Import ListNotations.

Local Open Scope string_scope.
Local Open Scope Z_scope.

(* ===================================================================== *)
(** ** Exceptions and results *)
(* ===================================================================== *)

(** The exceptions the program can end with. [RuntimeError] is the only one
    main.py raises itself; the others are raised by the Python runtime:
    ValueError also where a conversion between [int] and [str] is beyond
    [max_str_digits], OverflowError and MemoryError also where a sequence is
    repeated beyond the sizes the machine can index.
    [OutOfFuel] is not a Python exception: it marks a recursion of the model
    that was given too little fuel, and no run ends with it
    ([run_has_fuel]). *)
Inductive error : Type :=
| RuntimeError (msg : string)
| TypeError
| ValueError
| ZeroDivisionError
| OverflowError
| MemoryError
| OutOfFuel.

Inductive result (A : Type) : Type :=
| Ok (a : A)
| Err (e : error).
Arguments Ok {A} a.
Arguments Err {A} e.

Definition is_Ok {A} (r : result A) : bool :=
  match r with Ok _ => true | Err _ => false end.

(** A computation over a mutable object of type [S] that may raise: the
    object is threaded through, and an exception leaves it as it was when
    the exception was raised. *)
Definition M (S A : Type) : Type := S -> result A * S.

Definition ret {S A} (a : A) : M S A := fun s => (Ok a, s).
Definition raise {S A} (e : error) : M S A := fun s => (Err e, s).
Definition bind {S A B} (m : M S A) (k : A -> M S B) : M S B :=
  fun s => match m s with
           | (Ok a, s') => k a s'
           | (Err e, s') => (Err e, s')
           end.
Definition gets {S A} (f : S -> A) : M S A := fun s => (Ok (f s), s).
Definition modify {S} (f : S -> S) : M S unit := fun s => (Ok tt, f s).

Declare Scope monad_scope.
Delimit Scope monad_scope with monad.
Notation "x <- m ;; k" := (bind m (fun x => k))
  (at level 100, m at next level, right associativity) : monad_scope.
Notation "m ;;; k" := (bind m (fun _ => k))
  (at level 100, right associativity) : monad_scope.
Local Open Scope monad_scope.

(* ===================================================================== *)
(** ** Characters and strings *)
(* ===================================================================== *)

Definition code (c : ascii) : nat := nat_of_ascii c.

Definition between (lo hi n : nat) : bool := ((lo <=? n) && (n <=? hi))%nat.

(** [\d] : the decimal digits. Below code point 256 these are 0-9. *)
Definition is_digit (c : ascii) : bool := between 48 57 (code c).

(** [[A-Za-z_]] *)
Definition is_ident_start (c : ascii) : bool :=
  between 65 90 (code c) || between 97 122 (code c) || (code c =? 95)%nat.

(** The alphanumeric code points from 128 to 255: the letters, the
    superscript digits and the fractions of Latin-1. *)
Definition is_latin1_alnum (c : ascii) : bool :=
  let n := code c in
  (n =? 170)%nat || (n =? 178)%nat || (n =? 179)%nat || (n =? 181)%nat
  || (n =? 185)%nat || (n =? 186)%nat || between 188 190 n
  || between 192 214 n || between 216 246 n || between 248 255 n.

(** [\w] : alphanumeric or underscore. *)
Definition is_word (c : ascii) : bool :=
  is_digit c || is_ident_start c || is_latin1_alnum c.

Definition quote : ascii := Ascii.ascii_of_nat 34.

Definition is_quote (c : ascii) : bool := (code c =? 34)%nat.

(** [[+\-*/=<>!]] *)
Definition is_op (c : ascii) : bool :=
  let n := code c in
  (n =? 43)%nat || (n =? 45)%nat || (n =? 42)%nat || (n =? 47)%nat
  || (n =? 61)%nat || (n =? 60)%nat || (n =? 62)%nat || (n =? 33)%nat.

(** [[ \t\n]] *)
Definition is_skip (c : ascii) : bool :=
  let n := code c in (n =? 32)%nat || (n =? 9)%nat || (n =? 10)%nat.

(** The longest prefix whose characters satisfy [p], and what follows it:
    what a greedy [[...]*] matches. *)
Fixpoint span (p : ascii -> bool) (s : string) : string * string :=
  match s with
  | EmptyString => (EmptyString, EmptyString)
  | String c r =>
      if p c then let '(w, r') := span p r in (String c w, r')
      else (EmptyString, s)
  end.

(** [[^"]*"] : the text up to the first double quote and the text after that
    quote; [None] when there is no double quote. *)
Fixpoint closing_quote (s : string) : option (string * string) :=
  match s with
  | EmptyString => None
  | String c r =>
      if is_quote c then Some (EmptyString, r)
      else match closing_quote r with
           | Some (body, r') => Some (String c body, r')
           | None => None
           end
  end.

Fixpoint all_chars (p : ascii -> bool) (s : string) : bool :=
  match s with
  | EmptyString => true
  | String c r => p c && all_chars p r
  end.

(** [s[:-1]] *)
Fixpoint drop_last (s : string) : string :=
  match s with
  | EmptyString => EmptyString
  | String c EmptyString => EmptyString
  | String c r => String c (drop_last r)
  end.

(** [s[1:-1]] *)
Definition strip_ends (s : string) : string :=
  match s with
  | EmptyString => EmptyString
  | String _ r => drop_last r
  end.

(** The number a string of decimal digits denotes. *)
Fixpoint int_acc (acc : Z) (s : string) : Z :=
  match s with
  | EmptyString => acc
  | String c r => int_acc (10 * acc + (Z.of_nat (code c) - 48)) r
  end.

(** The limit of the Python runtime, as it is set by default, on the number
    of decimal digits in a conversion between [int] and [str]
    ([sys.int_info.default_max_str_digits]). *)
Definition max_str_digits : Z := 4300.

(** [int(s)] for a string of decimal digits: a ValueError when the string
    has more digits than the limit. *)
Definition int (s : string) : result Z :=
  if max_str_digits <? Z.of_nat (String.length s) then Err ValueError
  else Ok (int_acc 0 s).
Arguments int : simpl never.

(** The decimal text of an integer. *)
Definition str_int (n : Z) : string :=
  match n with
  | Zneg p => String (Ascii.ascii_of_nat 45)
                (NilZero.string_of_uint (N.to_uint (Npos p)))
  | _ => NilZero.string_of_uint (N.to_uint (Z.to_N n))
  end.

(** Whether [str(n)] returns: the digits of [n], the sign left out, are
    within the limit. Beyond it the conversion raises ValueError. *)
Definition str_returns (n : Z) : bool :=
  Z.of_nat (String.length (str_int (Z.abs n))) <=? max_str_digits.
Arguments str_returns : simpl never.

Definition upper_char (c : ascii) : ascii :=
  if between 97 122 (code c) then Ascii.ascii_of_nat (code c - 32) else c.

(** [s.upper()], for the ASCII strings it is applied to (the keywords). *)
Fixpoint upper (s : string) : string :=
  match s with
  | EmptyString => EmptyString
  | String c r => String (upper_char c) (upper r)
  end.

(* ===================================================================== *)
(** ** Tokens *)
(* ===================================================================== *)

(** The value of a token: an [int] for NUMBER, a [str] otherwise. *)
Inductive tokval : Type :=
| TInt (n : Z)
| TStr (s : string).

#[global] Instance tokval_eq_dec : EqDecision tokval.
Proof. solve_decision. Defined.

#[global] Instance tokval_countable : Countable tokval.
Proof.
  refine (inj_countable'
            (fun t => match t with TInt n => inl n | TStr s => inr s end)
            (fun x => match x with inl n => TInt n | inr s => TStr s end) _).
  intros []; reflexivity.
Defined.

(** A token is the pair [(kind, value)]. *)
Definition token : Type := string * tokval.

Definition kind (t : token) : string := fst t.

(* ===================================================================== *)
(** ** Lexer *)
(* ===================================================================== *)

Module Lexer.

Definition keywords : list string :=
  ["int"; "string"; "if"; "else"; "for"; "print"; "range"].

Definition is_keyword (s : string) : bool :=
  existsb (String.eqb s) keywords.

Definition single (c : ascii) : string := String c EmptyString.

(** One match of [tok_regex] at the start of [s]: the name of the group that
    matched ([mo.lastgroup]), the matched text ([mo.group()]) and the rest of
    the input. The alternatives are tried in the order of
    [token_specification]. [None] at the end of the input only: SKIP takes
    the newline, the one character MISMATCH ([.]) does not match. *)
Definition tok_regex (s : string) : option (string * string * string) :=
  match s with
  | EmptyString => None
  | String c rest =>
      if is_digit c then
        let '(w, r) := span is_digit s in Some ("NUMBER", w, r)
      else if is_ident_start c then
        let '(w, r) := span is_word rest in Some ("IDENT", String c w, r)
      else
        match (if is_quote c then closing_quote rest else None) with
        | Some (body, r) =>
            Some ("STRING", String c (body ++ single quote), r)
        | None =>
            if is_op c then
              let '(w, r) := span is_op s in Some ("OP", w, r)
            else if (code c =? 58)%nat then Some ("COLON", single c, rest)
            else if (code c =? 40)%nat then Some ("LPAREN", single c, rest)
            else if (code c =? 41)%nat then Some ("RPAREN", single c, rest)
            else if (code c =? 123)%nat then Some ("LBRACE", single c, rest)
            else if (code c =? 125)%nat then Some ("RBRACE", single c, rest)
            else if is_skip c then Some ("SKIP", single c, rest)
            else Some ("MISMATCH", single c, rest)
        end
  end.

(** What the body of the [for mo in re.finditer(...)] loop does with one
    match: [None] for [continue], a token to append, or the exception. *)
Definition token_of_match (kind value : string) : result (option token) :=
  if String.eqb kind "NUMBER" then
    match int value with
    | Ok n => Ok (Some (kind, TInt n))
    | Err e => Err e
    end
  else if String.eqb kind "STRING" then
    Ok (Some (kind, TStr (strip_ends value)))
  else if String.eqb kind "IDENT" && is_keyword value then
    Ok (Some (upper value, TStr value))
  else if String.eqb kind "SKIP" then Ok None
  else if String.eqb kind "MISMATCH" then
    Err (RuntimeError ("Unexpected character: " ++ value))
  else Ok (Some (kind, TStr value)).

(** The loop of [tokenize], from the remaining input [s]. Every match is at
    least one character long, so [String.length s] is fuel enough. *)
Fixpoint tokenize_from (fuel : nat) (s : string) : result (list token) :=
  match tok_regex s with
  | None => Ok []
  | Some (kind, value, rest) =>
      match token_of_match kind value with
      | Err e => Err e
      | Ok o =>
          match fuel with
          | O => Err OutOfFuel
          | S fuel' =>
              match tokenize_from fuel' rest with
              | Err e => Err e
              | Ok ts => Ok (match o with Some t => t :: ts | None => ts end)
              end
          end
      end
  end.

Definition tokenize (source_code : string) : result (list token) :=
  tokenize_from (String.length source_code) source_code.

End Lexer.

(* ===================================================================== *)
(** ** Abstract syntax *)
(* ===================================================================== *)

(** Expression nodes, as the tuples [parse_expression] builds:
    [OPERATION op left right] is [('OPERATION', op, left, right)] and
    [Atom token_type value] is [(token_type, value)]. *)
Inductive expr : Type :=
| OPERATION (op : tokval) (left right : expr)
| Atom (token_type : string) (value : tokval).

(** Statement nodes: [('DECLARE', type_, name, value)] with [value] possibly
    [None], [('IF', condition, if_block, else_block)] with [else_block]
    possibly [None], [('FOR', ident, range_expr, block)] and
    [('PRINT', expr)]. *)
#[local] Unset Elimination Schemes.
Inductive stmt : Type :=
| DECLARE (type_ name : tokval) (value : option expr)
| IF (condition : expr) (if_block : list stmt) (else_block : option (list stmt))
| FOR (ident : tokval) (range_expr : expr) (block : list stmt)
| PRINT (e : expr).
#[local] Set Elimination Schemes.

(* ===================================================================== *)
(** ** Parser *)
(* ===================================================================== *)

Module Parser.

(** The parser object: the token list it pops from, and the look-ahead. *)
Record t : Type := mk {
  tokens : list token;
  current_token : option token
}.

Definition next_token : M t unit :=
  modify (fun self =>
            match tokens self with
            | tok :: rest => mk rest (Some tok)
            | [] => mk [] None
            end).

(** [Parser(tokens)] *)
Definition init (toks : list token) : t := snd (next_token (mk toks None)).

(** [self.current_token and self.current_token[1] == text] *)
Definition current_value_is (text : string) : M t bool :=
  cur <- gets current_token ;;
  match cur with
  | Some (_, v) => ret (bool_decide (v = TStr text))
  | None => ret false
  end.

(** [self.current_token and self.current_token[0] == k] *)
Definition current_kind_is (k : string) : M t bool :=
  cur <- gets current_token ;;
  match cur with
  | Some (k', _) => ret (String.eqb k' k)
  | None => ret false
  end.

Definition in_list (k : string) (l : list string) : bool :=
  existsb (String.eqb k) l.

Definition expected_rparen : string :=
  "Expected " ++ Lexer.single quote ++ ")" ++ Lexer.single quote.

Definition expected_in : string :=
  "Expected " ++ Lexer.single quote ++ "in" ++ Lexer.single quote
  ++ " in for loop".

(** Indexing [self.current_token] when it is [None] is a TypeError of the
    Python runtime. *)
Fixpoint parse_expression (fuel : nat) : M t expr :=
  match fuel with
  | O => raise OutOfFuel
  | S fuel' =>
      cur <- gets current_token ;;
      match cur with
      | None => raise TypeError
      | Some (token_type, value) =>
          if String.eqb token_type "LPAREN" then
            next_token ;;;
            e <- parse_expression fuel' ;;
            cur' <- gets current_token ;;
            match cur' with
            | None => raise TypeError
            | Some (k, _) =>
                if negb (String.eqb k "RPAREN")
                then raise (RuntimeError expected_rparen)
                else next_token ;;; ret e
            end
          else if in_list token_type ["NUMBER"; "STRING"; "IDENT"] then
            next_token ;;;
            cur' <- gets current_token ;;
            match cur' with
            | Some (k, op) =>
                if String.eqb k "OP" then
                  next_token ;;;
                  right <- parse_expression fuel' ;;
                  ret (OPERATION op (Atom token_type value) right)
                else ret (Atom token_type value)
            | None => ret (Atom token_type value)
            end
          else
            raise (RuntimeError
                     ("Unexpected token in expression: " ++ token_type))
      end
  end.

(** [tok[1]] for a look-ahead that may be [None]. *)
Definition index1 (tok : option token) : M t tokval :=
  match tok with
  | Some (_, v) => ret v
  | None => raise TypeError
  end.

Section Statements.
(** The statement parsers, over the expression parser and the block
    parser they call. *)
Variable expression : M t expr.
Variable block : M t (list stmt).

Definition parse_declaration : M t stmt :=
  type_token <- gets current_token ;;
  next_token ;;;
  ident_token <- gets current_token ;;
  next_token ;;;
  has_init <- current_value_is "=" ;;
  value <- (if has_init : bool
            then next_token ;;; e <- expression ;; ret (Some e)
            else ret None) ;;
  type_ <- index1 type_token ;;
  name <- index1 ident_token ;;
  ret (DECLARE type_ name value).

Definition skip_colon : M t unit :=
  colon <- current_value_is ":" ;;
  if colon : bool then next_token else ret tt.

Definition parse_if : M t stmt :=
  next_token ;;;
  condition <- expression ;;
  skip_colon ;;;
  if_block <- block ;;
  has_else <- current_kind_is "ELSE" ;;
  else_block <- (if has_else : bool
                 then next_token ;;; skip_colon ;;;
                      b <- block ;; ret (Some b)
                 else ret None) ;;
  ret (IF condition if_block else_block).

Definition parse_for : M t stmt :=
  next_token ;;;
  ident_token <- gets current_token ;;
  next_token ;;;
  has_in <- current_value_is "in" ;;
  range_expr <- (if has_in : bool
                 then next_token ;;; expression
                 else raise (RuntimeError expected_in)) ;;
  skip_colon ;;;
  body <- block ;;
  ident <- index1 ident_token ;;
  ret (FOR ident range_expr body).

Definition parse_print : M t stmt :=
  next_token ;;;
  e <- expression ;;
  ret (PRINT e).

(** The dispatch of [parse_statement]. *)
Definition statement_dispatch : M t stmt :=
  cur <- gets current_token ;;
  match cur with
  | None => raise TypeError
  | Some (k, _) =>
      if String.eqb k "INT" || String.eqb k "STRING" then parse_declaration
      else if String.eqb k "IF" then parse_if
      else if String.eqb k "FOR" then parse_for
      else if String.eqb k "PRINT" then parse_print
      else raise (RuntimeError ("Unexpected token: " ++ k))
  end.
End Statements.

(** What [parse_block] does once its [while] loop has collected
    [statements]. *)
Definition close_block (statements : list stmt) : M t (list stmt) :=
  closing <- current_value_is "}" ;;
  (if closing : bool then next_token else ret tt) ;;;
  ret statements.

(** [parse_statement], and the [while] loop of [parse_block]. *)
Fixpoint parse_statement (fuel : nat) : M t stmt :=
  match fuel with
  | O => raise OutOfFuel
  | S fuel' =>
      statement_dispatch (parse_expression fuel')
        (statements <- block_loop fuel' ;; close_block statements)
  end
with block_loop (fuel : nat) : M t (list stmt) :=
  match fuel with
  | O => raise OutOfFuel
  | S fuel' =>
      cur <- gets current_token ;;
      match cur with
      | Some (_, v) =>
          if negb (bool_decide (v = TStr "}")) then
            s <- parse_statement fuel' ;;
            statements <- block_loop fuel' ;;
            ret (s :: statements)
          else ret []
      | None => ret []
      end
  end.

Definition parse_block (fuel : nat) : M t (list stmt) :=
  statements <- block_loop fuel ;; close_block statements.

Fixpoint parse_program (fuel : nat) : M t (list stmt) :=
  match fuel with
  | O => raise OutOfFuel
  | S fuel' =>
      cur <- gets current_token ;;
      match cur with
      | Some _ =>
          s <- parse_statement fuel' ;;
          statements <- parse_program fuel' ;;
          ret (s :: statements)
      | None => ret []
      end
  end.

(** Every recursive call follows the consumption of a token, or is the
    call of [parse_statement] by one of the two loops: twice the number of
    tokens, and two, is fuel enough. *)
Definition fuel_for (toks : list token) : nat := 2 * List.length toks + 2.

(** [Parser(tokens).parse()] *)
Definition parse (toks : list token) : result (list stmt) :=
  fst (parse_program (fuel_for toks) (init toks)).

End Parser.

(* ===================================================================== *)
(** ** Values and the Python operators *)
(* ===================================================================== *)

(** The objects an expression can evaluate to: [int], [bool], [float],
    [str], and tuples of token values (an expression node that [evaluate]
    hands back as it is, and the tuples [+] and [*] build from such). *)
Inductive value : Type :=
| VInt (n : Z)
| VBool (b : bool)
| VFloat (f : spec_float)
| VStr (s : string)
| VTuple (items : list tokval).

Definition of_tokval (v : tokval) : value :=
  match v with
  | TInt n => VInt n
  | TStr s => VStr s
  end.

Module Py.

Definition prec : Z := 53.
Definition emax : Z := 1024.

(** [bool] is a subclass of [int]: [True] is 1 and [False] is 0. *)
Definition as_int (v : value) : option Z :=
  match v with
  | VInt n => Some n
  | VBool b => Some (if b then 1 else 0)
  | _ => None
  end.

Definition is_number (v : value) : bool :=
  match v with
  | VInt _ | VBool _ | VFloat _ => true
  | _ => false
  end.

(** [float(n)]: the nearest binary64 number, ties to even; an [int] beyond
    the range of binary64 raises OverflowError. *)
Definition float_of_int (n : Z) : result spec_float :=
  match binary_normalize prec emax n 0 false with
  | S754_infinity _ => Err OverflowError
  | f => Ok f
  end.

(** The conversion of a numeric operand in float arithmetic. *)
Definition to_float (v : value) : result spec_float :=
  match v with
  | VFloat f => Ok f
  | VInt n => float_of_int n
  | VBool b => float_of_int (if b then 1 else 0)
  | _ => Err TypeError
  end.

Definition is_zero (f : spec_float) : bool :=
  match f with
  | S754_zero _ => true
  | _ => false
  end.

(** An integer as an exact (not normalised) operand of [SFdiv]. *)
Definition exact_float (n : Z) : spec_float :=
  match n with
  | Z0 => S754_zero false
  | Zpos p => S754_finite false p 0
  | Zneg p => S754_finite true p 0
  end.

(** [a / b] on two [int]: the quotient rounded once to the nearest binary64
    number; the sign of a zero result is the sign of the quotient. *)
Definition int_true_divide (a b : Z) : result value :=
  if b =? 0 then Err ZeroDivisionError
  else if a =? 0 then Ok (VFloat (S754_zero (b <? 0)))
  else match SFdiv prec emax (exact_float a) (exact_float b) with
       | S754_infinity _ => Err OverflowError
       | f => Ok (VFloat f)
       end.

(** Float arithmetic on two numbers of which at least one is a [float]:
    both are converted, left first. *)
Definition float_op (f : spec_float -> spec_float -> result spec_float)
    (l r : value) : result value :=
  match to_float l with
  | Err e => Err e
  | Ok a =>
      match to_float r with
      | Err e => Err e
      | Ok b =>
          match f a b with
          | Ok c => Ok (VFloat c)
          | Err e => Err e
          end
      end
  end.

Definition float_div (a b : spec_float) : result spec_float :=
  if is_zero b then Err ZeroDivisionError else Ok (SFdiv prec emax a b).

(** A sequence repeated [n] times; nothing when [n] is not positive. *)
Fixpoint repeat_string (n : nat) (s : string) : string :=
  match n with
  | O => EmptyString
  | S n' => s ++ repeat_string n' s
  end.

Fixpoint repeat_list {A} (n : nat) (l : list A) : list A :=
  match n with
  | O => []
  | S n' => l ++ repeat_list n' l
  end.

(** [left + right] *)
Definition add (l r : value) : result value :=
  match as_int l, as_int r with
  | Some a, Some b => Ok (VInt (a + b))
  | _, _ =>
      match l, r with
      | VStr a, VStr b => Ok (VStr (a ++ b))
      | VTuple a, VTuple b => Ok (VTuple (a ++ b))
      | _, _ =>
          if is_number l && is_number r
          then float_op (fun a b => Ok (SFadd prec emax a b)) l r
          else Err TypeError
      end
  end.

(** [left - right] *)
Definition sub (l r : value) : result value :=
  match as_int l, as_int r with
  | Some a, Some b => Ok (VInt (a - b))
  | _, _ =>
      if is_number l && is_number r
      then float_op (fun a b => Ok (SFsub prec emax a b)) l r
      else Err TypeError
  end.

(** The largest size and index of the machine ([sys.maxsize], 64 bits). *)
Definition ssize_max : Z := 9223372036854775807.

(** The count of a repetition of a sequence of [len] items: an OverflowError
    when [n] is no index of the machine, and the exception [too_long] when
    the length of the result is none. The memory the machine really has is
    not modelled. *)
Definition repeat_count (too_long : error) (len n : Z) : result nat :=
  if (n <? - ssize_max - 1) || (ssize_max <? n) then Err OverflowError
  else if (0 <? n) && (ssize_max / n <? len) then Err too_long
  else Ok (Z.to_nat n).

(** [s * n] and [n * s] for a [str] *)
Definition repeat_str (s : string) (n : Z) : result value :=
  match repeat_count OverflowError (Z.of_nat (String.length s)) n with
  | Ok count => Ok (VStr (repeat_string count s))
  | Err e => Err e
  end.

(** [t * n] and [n * t] for a tuple *)
Definition repeat_tuple (t : list tokval) (n : Z) : result value :=
  match repeat_count MemoryError (Z.of_nat (List.length t)) n with
  | Ok count => Ok (VTuple (repeat_list count t))
  | Err e => Err e
  end.

(** [left * right] *)
Definition mul (l r : value) : result value :=
  match as_int l, as_int r with
  | Some a, Some b => Ok (VInt (a * b))
  | _, _ =>
      match l, as_int r, as_int l, r with
      | VStr s, Some n, _, _ => repeat_str s n
      | VTuple t, Some n, _, _ => repeat_tuple t n
      | _, _, Some n, VStr s => repeat_str s n
      | _, _, Some n, VTuple t => repeat_tuple t n
      | _, _, _, _ =>
          if is_number l && is_number r
          then float_op (fun a b => Ok (SFmul prec emax a b)) l r
          else Err TypeError
      end
  end.

(** [left / right] *)
Definition truediv (l r : value) : result value :=
  match as_int l, as_int r with
  | Some a, Some b => int_true_divide a b
  | _, _ =>
      if is_number l && is_number r
      then float_op float_div l r
      else Err TypeError
  end.

(** The exact order between an [int] and a [float]; [None] for a NaN. *)
Definition compare_int_float (a : Z) (f : spec_float) : option comparison :=
  match f with
  | S754_nan => None
  | S754_infinity s => Some (if s then Gt else Lt)
  | S754_zero _ => Some (a ?= 0)
  | S754_finite s m e =>
      let m' := if s then Zneg m else Zpos m in
      Some (if 0 <=? e then a ?= m' * 2 ^ e else a * 2 ^ (- e) ?= m')
  end.

(** The order between two numbers; [None] when one of them is a NaN or
    is not a number. *)
Definition compare_numbers (l r : value) : option comparison :=
  match l, r with
  | VFloat a, VFloat b => SFcompare a b
  | VFloat a, _ =>
      match as_int r with
      | Some b => option_map CompOpp (compare_int_float b a)
      | None => None
      end
  | _, VFloat b =>
      match as_int l with
      | Some a => compare_int_float a b
      | None => None
      end
  | _, _ =>
      match as_int l, as_int r with
      | Some a, Some b => Some (a ?= b)
      | _, _ => None
      end
  end.

(** [left == right] *)
Definition eq (l r : value) : bool :=
  match l, r with
  | VStr a, VStr b => String.eqb a b
  | VTuple a, VTuple b => bool_decide (a = b)
  | _, _ =>
      match compare_numbers l r with
      | Some Eq => true
      | _ => false
      end
  end.

(** The order between two items of a tuple, when they can be ordered. *)
Definition compare_items (a b : tokval) : result comparison :=
  match a, b with
  | TInt x, TInt y => Ok (x ?= y)
  | TStr x, TStr y => Ok (String.compare x y)
  | _, _ => Err TypeError
  end.

(** The order between two tuples: that of the first items that differ,
    else that of the lengths. *)
Fixpoint compare_tuples (a b : list tokval) : result comparison :=
  match a, b with
  | [], [] => Ok Eq
  | [], _ :: _ => Ok Lt
  | _ :: _, [] => Ok Gt
  | x :: a', y :: b' =>
      if bool_decide (x = y) then compare_tuples a' b' else compare_items x y
  end.

(** An ordering operator: [test] says which outcomes of the comparison
    make it true. With a NaN every ordering is false. *)
Definition order (test : comparison -> bool) (l r : value) : result value :=
  match l, r with
  | VStr a, VStr b => Ok (VBool (test (String.compare a b)))
  | VTuple a, VTuple b =>
      match compare_tuples a b with
      | Ok c => Ok (VBool (test c))
      | Err e => Err e
      end
  | _, _ =>
      if is_number l && is_number r then
        Ok (VBool (match compare_numbers l r with
                   | Some c => test c
                   | None => false
                   end))
      else Err TypeError
  end.

Definition is_lt (c : comparison) : bool :=
  match c with Lt => true | _ => false end.
Definition is_gt (c : comparison) : bool :=
  match c with Gt => true | _ => false end.
Definition is_le (c : comparison) : bool := negb (is_gt c).
Definition is_ge (c : comparison) : bool := negb (is_lt c).

(** The truth value of an object, as [if] takes it. *)
Definition truthy (v : value) : bool :=
  match v with
  | VInt n => negb (n =? 0)
  | VBool b => b
  | VFloat f => negb (is_zero f)
  | VStr s => negb (String.eqb s EmptyString)
  | VTuple items => match items with [] => false | _ => true end
  end.

(** The argument of [range]: an [int] (or [bool]). *)
Definition index (v : value) : result Z :=
  match as_int v with
  | Some n => Ok n
  | None => Err TypeError
  end.

(** The text of a token value inside an f-string. *)
Definition format (v : tokval) : string :=
  match v with
  | TInt n => str_int n
  | TStr s => s
  end.

End Py.

(* ===================================================================== *)
(** ** Interpreter *)
(* ===================================================================== *)

Module Interpreter.

(** The interpreter object, [self.variables], together with the standard
    output of the process: the objects handed to [print], oldest first. The
    keys of [variables] are token values. *)
Record t : Type := mk {
  variables : gmap tokval value;
  stdout : list value
}.

(** [Interpreter()], before anything was printed. *)
Definition init : t := mk ∅ [].

Definition lift {A} (r : result A) : M t A := fun self => (r, self).

(** [self.variables[name] = v] *)
Definition assign (name : tokval) (v : value) : M t unit :=
  modify (fun self => mk (<[name := v]> (variables self)) (stdout self)).

(** Whether [str(v)] returns: it needs the text of every [int] in [v]. *)
Definition printable (v : value) : bool :=
  match v with
  | VInt n => str_returns n
  | VTuple items =>
      forallb (fun item => match item with
                           | TInt n => str_returns n
                           | TStr _ => true
                           end) items
  | _ => true
  end.

(** [print(v)]: the text of [v] is made first, and nothing is written when
    that raises. *)
Definition print (v : value) : M t unit :=
  if printable v
  then modify (fun self => mk (variables self) (stdout self ++ [v]))
  else raise ValueError.

Definition op_is (op : tokval) (text : string) : bool :=
  bool_decide (op = TStr text).

Definition apply_operation (op : tokval) (left right : value) : M t value :=
  if op_is op "+" then lift (Py.add left right)
  else if op_is op "-" then lift (Py.sub left right)
  else if op_is op "*" then lift (Py.mul left right)
  else if op_is op "/" then lift (Py.truediv left right)
  else if op_is op "==" then ret (VBool (Py.eq left right))
  else if op_is op "<" then lift (Py.order Py.is_lt left right)
  else if op_is op ">" then lift (Py.order Py.is_gt left right)
  else if op_is op "<=" then lift (Py.order Py.is_le left right)
  else if op_is op ">=" then lift (Py.order Py.is_ge left right)
  else if op_is op "!=" then ret (VBool (negb (Py.eq left right)))
  else raise (RuntimeError ("Unknown operator: " ++ Py.format op)).

(** [evaluate] on the nodes the parser builds, which are all tuples. A
    tuple whose tag is neither OPERATION nor NUMBER nor STRING skips the
    [elif] branches, which are for objects that are no tuples, and reaches
    the final [return expr]: the node itself is the result. Unpacking a
    pair into four names is a ValueError. *)
Fixpoint evaluate (e : expr) : M t value :=
  match e with
  | OPERATION op l r =>
      left_val <- evaluate l ;;
      right_val <- evaluate r ;;
      apply_operation op left_val right_val
  | Atom token_type v =>
      if String.eqb token_type "OPERATION" then raise ValueError
      else if Parser.in_list token_type ["NUMBER"; "STRING"]
      then ret (of_tokval v)
      else ret (VTuple [TStr token_type; v])
  end.

(** [for node in ast: execute(node)] *)
Fixpoint interpret_with (execute : stmt -> M t unit) (ast : list stmt)
  : M t unit :=
  match ast with
  | [] => ret tt
  | node :: rest => execute node ;;; interpret_with execute rest
  end.

(** [for i in range(count): body(i)], from [i] on. *)
Fixpoint for_range (body : Z -> M t unit) (i : Z) (count : nat) : M t unit :=
  match count with
  | O => ret tt
  | S count' => body i ;;; for_range body (i + 1) count'
  end.

Fixpoint execute (node : stmt) : M t unit :=
  match node with
  | DECLARE type_ name value =>
      match value with
      | Some e => v <- evaluate e ;; assign name v
      | None => ret tt
      end
  | IF condition if_block else_block =>
      c <- evaluate condition ;;
      if Py.truthy c then interpret_with execute if_block
      else match else_block with
           | Some ((_ :: _) as b) => interpret_with execute b
           | _ => ret tt
           end
  | FOR ident range_expr block =>
      bound <- evaluate range_expr ;;
      n <- lift (Py.index bound) ;;
      for_range (fun i => assign ident (VInt i) ;;;
                          interpret_with execute block)
                0 (Z.to_nat n)
  | PRINT e =>
      v <- evaluate e ;; print v
  end.

Definition interpret (ast : list stmt) : M t unit :=
  interpret_with execute ast.

End Interpreter.

(* ===================================================================== *)
(** ** The program *)
(* ===================================================================== *)

(** The module top level, from the text of the source file on: the final
    variables and the output, with the exception that ended the run if one
    did. *)
Definition main (source_code : string) : M Interpreter.t unit :=
  tokens <- Interpreter.lift (Lexer.tokenize source_code) ;;
  ast <- Interpreter.lift (Parser.parse tokens) ;;
  Interpreter.interpret ast.

Definition run (source_code : string) : result unit * Interpreter.t :=
  main source_code Interpreter.init.

Definition parse_source (source_code : string) : result (list stmt) :=
  match Lexer.tokenize source_code with
  | Ok tokens => Parser.parse tokens
  | Err e => Err e
  end.

Definition variables_after (source_code : string) : gmap tokval value :=
  Interpreter.variables (snd (run source_code)).

Definition output_of (source_code : string) : list value :=
  Interpreter.stdout (snd (run source_code)).

(* ===================================================================== *)
(** ** Vocabulary of the properties *)
(* ===================================================================== *)

(** What stops a greedy run: the end of the text, or a character outside
    the class. *)
Definition stops (p : ascii -> bool) (r : string) : bool :=
  match r with
  | EmptyString => true
  | String c _ => negb (p c)
  end.

Definition not_quote (c : ascii) : bool := negb (is_quote c).

(** [: ( ) { }] *)
Definition is_punct (c : ascii) : bool :=
  let n := code c in
  (n =? 58)%nat || (n =? 40)%nat || (n =? 41)%nat || (n =? 123)%nat
  || (n =? 125)%nat.

(** A character no token pattern accepts, at the start of a token or
    inside one: only MISMATCH matches it. *)
Definition unmatched (c : ascii) : bool :=
  negb (is_word c || is_quote c || is_op c || is_punct c || is_skip c).

(** The text [s] between double quotes. *)
Definition quoted (s : string) : string :=
  String quote (s ++ Lexer.single quote).

(** The literal texts of the tokens of a source text: the matched text
    [mo.group()] of every match that the loop of [tokenize] turns into a
    token, in the order of the matches. *)
Fixpoint texts_from (fuel : nat) (s : string) : list string :=
  match Lexer.tok_regex s with
  | None => []
  | Some (kind, value, rest) =>
      match fuel with
      | O => []
      | S fuel' =>
          match Lexer.token_of_match kind value with
          | Ok (Some _) => value :: texts_from fuel' rest
          | Ok None => texts_from fuel' rest
          | Err _ => []
          end
      end
  end.

Definition literal_texts (source_code : string) : list string :=
  texts_from (String.length source_code) source_code.

(** The texts with one space between them. *)
Definition join_texts (texts : list string) : string :=
  String.concat " " texts.

Definition punctuation : list (string * ascii) :=
  [("COLON", Ascii.ascii_of_nat 58); ("LPAREN", Ascii.ascii_of_nat 40);
   ("RPAREN", Ascii.ascii_of_nat 41); ("LBRACE", Ascii.ascii_of_nat 123);
   ("RBRACE", Ascii.ascii_of_nat 125)].

(** The tokens the lexer can produce. *)
Inductive lexed : token -> Prop :=
| lexed_number n : 0 <= n -> lexed ("NUMBER", TInt n)
| lexed_ident c w :
    is_ident_start c = true -> all_chars is_word w = true ->
    Lexer.is_keyword (String c w) = false ->
    lexed ("IDENT", TStr (String c w))
| lexed_keyword w : Lexer.is_keyword w = true -> lexed (upper w, TStr w)
| lexed_string body :
    all_chars not_quote body = true -> lexed ("STRING", TStr body)
| lexed_op w :
    w <> EmptyString -> all_chars is_op w = true -> lexed ("OP", TStr w)
| lexed_punct k c :
    In (k, c) punctuation -> lexed (k, TStr (Lexer.single c)).

(** The end of the text, or a space. *)
Definition separated (r : string) : Prop :=
  r = EmptyString \/ exists r', r = String (Ascii.ascii_of_nat 32) r'.

(** The names a statement can bind: those of the declarations with an
    initializer and of the loops in it. *)
Fixpoint assigns (k : tokval) (node : stmt) : bool :=
  match node with
  | DECLARE _ name value =>
      match value with
      | Some _ => bool_decide (name = k)
      | None => false
      end
  | IF _ if_block else_block =>
      existsb (assigns k) if_block
      || match else_block with
         | Some b => existsb (assigns k) b
         | None => false
         end
  | FOR ident _ block => bool_decide (ident = k) || existsb (assigns k) block
  | PRINT _ => false
  end.

Definition keeps (k : tokval) (m : M Interpreter.t unit) : Prop :=
  forall self,
    Interpreter.variables (snd (m self)) !! k = Interpreter.variables self !! k.

(** The iterations of a loop, one after the other. *)
Definition iterations (body : Z -> M Interpreter.t unit) (indices : list Z)
  : M Interpreter.t unit :=
  fold_right (fun i rest => body i ;;; rest) (ret tt) indices.

(** [0, 1, ..., count - 1], from [i] on. *)
Definition indices_from (i : Z) (count : nat) : list Z :=
  map (fun j => i + Z.of_nat j) (seq 0 count).


(** A parser that never returns a declaration. *)
Definition no_declaration (m : M Parser.t stmt) : Prop :=
  forall self type_ name value self',
    m self <> (Ok (DECLARE type_ name value), self').

(** The parser has a look-ahead whenever it has tokens left. *)
Definition well_formed (self : Parser.t) : Prop :=
  Parser.current_token self = None -> Parser.tokens self = [].

(** The number of tokens not yet consumed, the look-ahead included. *)
Definition remaining (self : Parser.t) : nat :=
  (List.length (Parser.tokens self)
   + match Parser.current_token self with Some _ => 1 | None => 0 end)%nat.

(** On [self] the parser [m] has fuel enough and consumes tokens only. *)
Definition fine_at {A} (m : M Parser.t A) (self : Parser.t) : Prop :=
  fst (m self) <> Err OutOfFuel
  /\ well_formed (snd (m self))
  /\ (remaining (snd (m self)) <= remaining self)%nat.

(** [m] is fine on every parser with at most [n] tokens left. *)
Definition within {A} (n : nat) (m : M Parser.t A) : Prop :=
  forall self, well_formed self -> (remaining self <= n)%nat -> fine_at m self.

(** [m] is fine with at most [n] tokens left and, when it returns,
    has consumed a token. *)
Definition within_strict {A} (n : nat) (m : M Parser.t A) : Prop :=
  within n m
  /\ forall self, well_formed self -> (remaining self <= n)%nat ->
                  is_Ok (fst (m self)) = true ->
                  (remaining (snd (m self)) < remaining self)%nat.

(** The two facts about a parser at [self]: it is fine there, and has
    consumed a token when it returns. *)
Definition fine_strict_at {A} (m : M Parser.t A) (self : Parser.t) : Prop :=
  fine_at m self
  /\ (is_Ok (fst (m self)) = true ->
      (remaining (snd (m self)) < remaining self)%nat).

(** A computation that never runs out of fuel. *)
Definition has_fuel {S A} (m : M S A) : Prop :=
  forall s, fst (m s) <> Err OutOfFuel.

(** The kinds a token can have. *)
Definition token_kinds : list string :=
  ["NUMBER"; "IDENT"; "STRING"; "OP"; "COLON"; "LPAREN"; "RPAREN"; "LBRACE";
   "RBRACE"; "INT"; "IF"; "ELSE"; "FOR"; "PRINT"; "RANGE"].

(** What the lexer guarantees of a token: a known kind; an [int] that is
    not negative for NUMBER and for it alone; no double quote inside the
    value of a STRING token. *)
Definition token_shape (t : token) : Prop :=
  In (fst t) token_kinds
  /\ match snd t with
     | TInt n => fst t = "NUMBER" /\ 0 <= n
     | TStr v =>
         fst t <> "NUMBER"
         /\ (fst t = "STRING" -> all_chars not_quote v = true)
         /\ (fst t <> "STRING" -> v <> EmptyString)
     end.

(** A character some token pattern accepts wherever it stands, the double
    quote left out. *)
Definition plain (c : ascii) : bool :=
  is_digit c || is_ident_start c || is_op c || is_punct c || is_skip c.

(** No run of digits in [s] has more than [max_str_digits] digits; [run]
    is the length of the run of digits that ends where [s] starts. *)
Fixpoint digit_runs_within (run : Z) (s : string) : bool :=
  match s with
  | EmptyString => true
  | String c r =>
      if is_digit c
      then (run + 1 <=? max_str_digits) && digit_runs_within (run + 1) r
      else digit_runs_within 0 r
  end.

Definition short_numbers (s : string) : bool := digit_runs_within 0 s.

(** The last character of [s] is one of the class [p]. *)
Fixpoint ends_in (p : ascii -> bool) (s : string) : bool :=
  match s with
  | EmptyString => false
  | String c EmptyString => p c
  | String _ r => ends_in p r
  end.

(** A token at the end of [before] is not continued by the start of
    [after]: no word character follows a word character, no operator
    character follows an operator character. *)
Definition apart (before after : string) : bool :=
  (negb (ends_in is_word before) || stops is_word after)
  && (negb (ends_in is_op before) || stops is_op after).

(** The token of a word: a keyword has its own kind. *)
Definition word_token (w : string) : token :=
  if Lexer.is_keyword w then (upper w, TStr w) else ("IDENT", TStr w).

(** The tokens in front of the parser: the look-ahead, then the list. *)
Definition stream (self : Parser.t) : list token :=
  match Parser.current_token self with
  | Some tok => tok :: Parser.tokens self
  | None => Parser.tokens self
  end.

(** [m] only takes tokens from the front: what is in front of the parser
    afterwards is a suffix of what was in front of it before. *)
Definition in_order {A} (m : M Parser.t A) : Prop :=
  forall self,
    exists used, stream self = (used ++ stream (snd (m self)))%list.

(** [m] has taken at least one token when it returns. *)
Definition takes_some {A} (m : M Parser.t A) : Prop :=
  forall self a self',
    m self = (Ok a, self') ->
    exists used, used <> [] /\ stream self = (used ++ stream self')%list.

(** What an exception of the parser says of the parser it leaves behind.
    A TypeError comes from indexing the look-ahead when it is [None]: the
    input has ended. A RuntimeError is the one of a [for] without [in], or
    names the kind of the look-ahead, the token the parser stopped at. Of
    other exceptions nothing is said. *)
Definition explains (e : error) (self : Parser.t) : Prop :=
  match e with
  | TypeError => Parser.current_token self = None
  | RuntimeError msg =>
      msg = Parser.expected_in
      \/ exists k v,
          Parser.current_token self = Some (k, v)
          /\ (msg = "Unexpected token: " ++ k
              \/ msg = "Unexpected token in expression: " ++ k
              \/ (msg = Parser.expected_rparen /\ k <> "RPAREN"))
  | _ => True
  end.

(** Run on [self], the parser [m] leaves a parser that has a look-ahead
    whenever it has tokens, and an exception of [m] is explained by the
    parser it leaves. *)
Definition explained_at {A} (m : M Parser.t A) (self : Parser.t) : Prop :=
  well_formed (snd (m self))
  /\ forall e, fst (m self) = Err e -> explains e (snd (m self)).

Definition explained {A} (m : M Parser.t A) : Prop :=
  forall self, well_formed self -> explained_at m self.

(** [m] does not look at the variables: its result and what it prints are
    the same from two interpreters with the same output so far. *)
Definition blind {A} (m : M Interpreter.t A) : Prop :=
  forall s1 s2,
    Interpreter.stdout s1 = Interpreter.stdout s2 ->
    fst (m s1) = fst (m s2)
    /\ Interpreter.stdout (snd (m s1)) = Interpreter.stdout (snd (m s2)).

(** [m] only adds to the output. *)
Definition appends {A} (m : M Interpreter.t A) : Prop :=
  forall self,
    exists out,
      Interpreter.stdout (snd (m self)) = (Interpreter.stdout self ++ out)%list.

(** [m] prints nothing. *)
Definition silent {A} (m : M Interpreter.t A) : Prop :=
  forall self, Interpreter.stdout (snd (m self)) = Interpreter.stdout self.

(** [m] unbinds no variable. *)
Definition keeps_bound {A} (m : M Interpreter.t A) : Prop :=
  forall self k,
    is_Some (Interpreter.variables self !! k) ->
    is_Some (Interpreter.variables (snd (m self)) !! k).

(** A statement with a [print] in it. *)
Fixpoint prints (node : stmt) : bool :=
  match node with
  | DECLARE _ _ _ => false
  | IF _ if_block else_block =>
      existsb prints if_block
      || match else_block with
         | Some b => existsb prints b
         | None => false
         end
  | FOR _ _ block => existsb prints block
  | PRINT _ => true
  end.

(** The operators [apply_operation] knows. *)
Definition operators : list string :=
  ["+"; "-"; "*"; "/"; "=="; "<"; ">"; "<="; ">="; "!="].

Section StmtInduction.
Variable P : stmt -> Prop.
Hypothesis HDECLARE : forall type_ name value, P (DECLARE type_ name value).
Hypothesis HIF : forall condition if_block else_block,
    Forall P if_block ->
    match else_block with Some b => Forall P b | None => True end ->
    P (IF condition if_block else_block).
Hypothesis HFOR : forall ident range_expr block,
    Forall P block -> P (FOR ident range_expr block).
Hypothesis HPRINT : forall e, P (PRINT e).

(** Induction on statements, with the hypothesis for every statement of
    a nested block. *)
Fixpoint stmt_ind (node : stmt) : P node :=
  let all :=
    fix all (l : list stmt) : Forall P l :=
      match l with
      | [] => @List.Forall_nil stmt P
      | x :: l0 => @List.Forall_cons stmt P x l0 (stmt_ind x) (all l0)
      end in
  match node with
  | DECLARE type_ name value => HDECLARE type_ name value
  | IF condition if_block else_block =>
      HIF condition if_block else_block (all if_block)
        (match else_block with Some b => all b | None => I end)
  | FOR ident range_expr block => HFOR ident range_expr block (all block)
  | PRINT e => HPRINT e
  end.
End StmtInduction.

(* ===================================================================== *)
(** ** Examples *)
(* ===================================================================== *)

Example tokenize_spec_example :
  Lexer.tokenize "x = 5" = Ok [("IDENT", TStr "x"); ("OP", TStr "="); ("NUMBER", TInt 5)].
Proof. vm_compute. reflexivity. Qed.

Example run_for_example :
  fst (run "for i in 3 : print 7 }") = Ok tt
  /\ output_of "for i in 3 : print 7 }" = [VInt 7; VInt 7; VInt 7]
  /\ variables_after "for i in 3 : print 7 }" !! TStr "i" = Some (VInt 2).
Proof. vm_compute. auto. Qed.

(* ===================================================================== *)
(** ** Facts about strings *)
(* ===================================================================== *)

Section StringFacts.

Lemma append_nil_l (s : string) : EmptyString ++ s = s.
Proof. reflexivity. Qed.

Lemma append_cons (c : ascii) (a b : string) :
  String c a ++ b = String c (a ++ b).
Proof. reflexivity. Qed.

Lemma append_nil_r (s : string) : s ++ EmptyString = s.
Proof.
  induction s as [|c s IH]; [reflexivity|].
  now rewrite append_cons, IH.
Qed.

Lemma append_assoc (a b c : string) : (a ++ b) ++ c = a ++ (b ++ c).
Proof.
  induction a as [|x a IH]; [reflexivity|].
  now rewrite !append_cons, IH.
Qed.

Lemma length_append (a b : string) :
  String.length (a ++ b) = (String.length a + String.length b)%nat.
Proof.
  induction a as [|x a IH]; [reflexivity|].
  rewrite append_cons. simpl. now rewrite IH.
Qed.

Lemma span_length p s w r :
  span p s = (w, r) ->
  (String.length w + String.length r)%nat = String.length s.
Proof.
  revert w r; induction s as [|c s IH]; simpl; intros w r H.
  - now inversion H.
  - destruct (p c).
    + destruct (span p s) as [w' r'] eqn:E. inversion H; subst; simpl.
      f_equal. now apply IH.
    + inversion H; subst; simpl. reflexivity.
Qed.

Lemma span_all p s w r : span p s = (w, r) -> all_chars p w = true.
Proof.
  revert w r; induction s as [|c s IH]; simpl; intros w r H.
  - now inversion H.
  - destruct (p c) eqn:Ec.
    + destruct (span p s) as [w' r'] eqn:E. inversion H; subst; simpl.
      rewrite Ec. simpl. now apply (IH w' r).
    + now inversion H.
Qed.

Lemma span_append p s w r : span p s = (w, r) -> s = w ++ r.
Proof.
  revert w r; induction s as [|c s IH]; simpl; intros w r H.
  - now inversion H.
  - destruct (p c).
    + destruct (span p s) as [w' r'] eqn:E. inversion H; subst.
      rewrite append_cons. f_equal. now apply IH.
    + now inversion H.
Qed.

(** A run of the class followed by something that stops it is matched
    whole. *)
Lemma span_run p w r :
  all_chars p w = true -> stops p r = true -> span p (w ++ r) = (w, r).
Proof.
  intros Hw Hr. induction w as [|c w IH].
  - rewrite append_nil_l. destruct r as [|c r]; simpl in *; [reflexivity|].
    destruct (p c); [discriminate | reflexivity].
  - simpl in Hw. apply andb_prop in Hw as [Hc Hw].
    rewrite append_cons. simpl. rewrite Hc, (IH Hw). reflexivity.
Qed.

Lemma closing_quote_length s body r :
  closing_quote s = Some (body, r) ->
  (String.length body + 1 + String.length r)%nat = String.length s.
Proof.
  revert body r; induction s as [|c s IH]; simpl; intros body r H.
  - discriminate.
  - destruct (is_quote c).
    + inversion H; subst. reflexivity.
    + destruct (closing_quote s) as [[b r']|] eqn:E; [|discriminate].
      inversion H; subst; simpl. f_equal. now apply IH.
Qed.

Lemma closing_quote_body s body r :
  closing_quote s = Some (body, r) -> all_chars not_quote body = true.
Proof.
  revert body r; induction s as [|c s IH]; simpl; intros body r H.
  - discriminate.
  - destruct (is_quote c) eqn:Ec.
    + inversion H; subst. reflexivity.
    + destruct (closing_quote s) as [[b r']|] eqn:E; [|discriminate].
      inversion H; subst; simpl. unfold not_quote at 1. rewrite Ec. simpl.
      now apply (IH b r).
Qed.

Lemma closing_quote_run body r :
  all_chars not_quote body = true ->
  closing_quote (body ++ String quote r) = Some (body, r).
Proof.
  intros Hb. induction body as [|c b IH].
  - reflexivity.
  - simpl in Hb. apply andb_prop in Hb as [Hc Hb]. unfold not_quote in Hc.
    apply negb_true_iff in Hc. rewrite append_cons. simpl.
    rewrite Hc, (IH Hb). reflexivity.
Qed.

Lemma drop_last_append (s : string) (c : ascii) :
  drop_last (s ++ String c EmptyString) = s.
Proof.
  induction s as [|x s IH]; [reflexivity|].
  rewrite append_cons. simpl. rewrite IH.
  destruct s; reflexivity.
Qed.

End StringFacts.

(* ===================================================================== *)
(** ** Facts about the lexer *)
(* ===================================================================== *)

Section LexerFacts.
Import Lexer.

(** Every match consumes at least one character. *)
Lemma tok_regex_shorter s k v rest :
  tok_regex s = Some (k, v, rest) ->
  (String.length rest < String.length s)%nat.
Proof.
  destruct s as [|c s]; [discriminate|]. unfold tok_regex.
  destruct (is_digit c) eqn:Hd.
  { simpl. rewrite Hd. destruct (span is_digit s) as [w r] eqn:E.
    intros H; inversion H; subst. apply span_length in E. lia. }
  destruct (is_ident_start c).
  { destruct (span is_word s) as [w r] eqn:E.
    intros H; inversion H; subst. apply span_length in E. simpl. lia. }
  destruct (if is_quote c then closing_quote s else None)
    as [[body r]|] eqn:Eq.
  { destruct (is_quote c); [|discriminate].
    intros H; inversion H; subst. apply closing_quote_length in Eq.
    simpl. lia. }
  destruct (is_op c) eqn:Ho.
  { simpl. rewrite Ho. destruct (span is_op s) as [w r] eqn:E.
    intros H; inversion H; subst. apply span_length in E. lia. }
  repeat match goal with
         | |- context [if ?b then _ else _] => destruct b
         end; intros H; inversion H; subst; simpl; lia.
Qed.

Lemma tokenize_from_fuel f1 f2 s :
  (String.length s <= f1)%nat -> (String.length s <= f2)%nat ->
  tokenize_from f1 s = tokenize_from f2 s.
Proof.
  revert f2 s. induction f1 as [|f1 IH]; intros f2 s H1 H2.
  - destruct s; [|simpl in H1; lia]. destruct f2; reflexivity.
  - destruct f2 as [|f2].
    { destruct s; [|simpl in H2; lia]. reflexivity. }
    simpl. destruct (tok_regex s) as [[[k v] rest]|] eqn:E; [|reflexivity].
    apply tok_regex_shorter in E.
    destruct (token_of_match k v); [|reflexivity].
    rewrite (IH f2 rest) by lia. reflexivity.
Qed.

(** [tokenize] unfolded by one match of the regular expression. *)
Lemma tokenize_step s :
  tokenize s =
  match tok_regex s with
  | None => Ok []
  | Some (k, v, rest) =>
      match token_of_match k v with
      | Err e => Err e
      | Ok o =>
          match tokenize rest with
          | Err e => Err e
          | Ok ts => Ok (match o with Some t => t :: ts | None => ts end)
          end
      end
  end.
Proof.
  unfold tokenize. destruct s as [|c s]; [reflexivity|].
  change (String.length (String c s)) with (S (String.length s)).
  cbn [tokenize_from].
  destruct (tok_regex (String c s)) as [[[k v] rest]|] eqn:E; [|reflexivity].
  apply tok_regex_shorter in E. simpl in E.
  destruct (token_of_match k v); [|reflexivity].
  rewrite (tokenize_from_fuel (String.length s) (String.length rest) rest)
    by lia.
  reflexivity.
Qed.

End LexerFacts.

(** The character classes of the token patterns, as far as the order of
    the alternatives makes them matter. *)
Lemma op_char_classes c :
  is_op c = true ->
  is_digit c = false /\ is_ident_start c = false /\ is_quote c = false.
Proof.
  destruct c as [[] [] [] [] [] [] [] []]; vm_compute; intros H;
    (discriminate H || auto).
Qed.

Lemma ident_start_classes c :
  is_ident_start c = true -> is_digit c = false /\ is_word c = true.
Proof.
  destruct c as [[] [] [] [] [] [] [] []]; vm_compute; intros H;
    (discriminate H || auto).
Qed.

Lemma digit_is_word c : is_digit c = true -> is_word c = true.
Proof. unfold is_word. now intros ->. Qed.

Section Retokenize.
Import Lexer.

Lemma tok_regex_number w r :
  w <> EmptyString -> all_chars is_digit w = true ->
  stops is_digit r = true ->
  tok_regex (w ++ r) = Some ("NUMBER", w, r).
Proof.
  intros Hne Hw Hr. destruct w as [|c w]; [congruence|].
  pose proof (span_run _ _ _ Hw Hr) as Hs.
  rewrite append_cons in *. simpl in Hw. apply andb_prop in Hw as [Hc _].
  unfold tok_regex. rewrite Hc, Hs. reflexivity.
Qed.

Lemma tok_regex_ident c w r :
  is_ident_start c = true -> all_chars is_word w = true ->
  stops is_word r = true ->
  tok_regex (String c w ++ r) = Some ("IDENT", String c w, r).
Proof.
  intros Hc Hw Hr. destruct (ident_start_classes _ Hc) as [Hd _].
  rewrite append_cons. unfold tok_regex.
  rewrite Hd, Hc, (span_run _ _ _ Hw Hr). reflexivity.
Qed.

Lemma tok_regex_string body r :
  all_chars not_quote body = true ->
  tok_regex (String quote (body ++ String quote r))
  = Some ("STRING", String quote (body ++ single quote), r).
Proof.
  intros Hb. unfold tok_regex.
  change (is_digit quote) with false.
  change (is_ident_start quote) with false.
  change (is_quote quote) with true. cbv iota.
  rewrite (closing_quote_run _ r Hb). reflexivity.
Qed.

Lemma tok_regex_op w r :
  w <> EmptyString -> all_chars is_op w = true -> stops is_op r = true ->
  tok_regex (w ++ r) = Some ("OP", w, r).
Proof.
  intros Hne Hw Hr. destruct w as [|c w]; [congruence|].
  pose proof (span_run _ _ _ Hw Hr) as Hs.
  rewrite append_cons in *. simpl in Hw. apply andb_prop in Hw as [Hc _].
  destruct (op_char_classes _ Hc) as (Hd & Hi & Hq).
  unfold tok_regex. rewrite Hd, Hi, Hq, Hc, Hs. reflexivity.
Qed.

Lemma is_skip_cases c :
  is_skip c = true ->
  c = Ascii.ascii_of_nat 32 \/ c = Ascii.ascii_of_nat 9
  \/ c = Ascii.ascii_of_nat 10.
Proof.
  destruct c as [[] [] [] [] [] [] [] []]; vm_compute; intros H;
    (discriminate H || auto).
Qed.

Lemma tokenize_skip c s :
  is_skip c = true -> tokenize (String c s) = tokenize s.
Proof.
  intros Hc. rewrite tokenize_step.
  assert (tok_regex (String c s) = Some ("SKIP", single c, s)) as ->.
  { destruct (is_skip_cases c Hc) as [-> | [-> | ->]]; reflexivity. }
  cbn. destruct (tokenize s); reflexivity.
Qed.

End Retokenize.

(** C7. A maximal run of the operator characters + - * / = < > ! is
    consumed as exactly one OP token whose value is the whole run: wherever
    the lexer stands in front of a non-empty run [w] of such characters that
    is followed by the end of the text or by another character, the next
    token is [("OP", w)] and lexing goes on behind the run. So [==], [!=],
    [<=], [>=] each are a single OP token, and so is [+-]. *)
Theorem op_run_single_token :
  (forall w r : string,
      w <> EmptyString -> all_chars is_op w = true ->
      stops is_op r = true ->
      Lexer.tok_regex (w ++ r) = Some ("OP", w, r)
      /\ Lexer.tokenize (w ++ r)
         = match Lexer.tokenize r with
           | Ok ts => Ok (("OP", TStr w) :: ts)
           | Err e => Err e
           end)
  /\ Lexer.tokenize "==" = Ok [("OP", TStr "==")]
  /\ Lexer.tokenize "!=" = Ok [("OP", TStr "!=")]
  /\ Lexer.tokenize "<=" = Ok [("OP", TStr "<=")]
  /\ Lexer.tokenize ">=" = Ok [("OP", TStr ">=")]
  /\ Lexer.tokenize "+-" = Ok [("OP", TStr "+-")].
Proof.
  split; [|repeat split; reflexivity].
  intros w r Hne Hw Hr. pose proof (tok_regex_op w r Hne Hw Hr) as E.
  split; [exact E|]. rewrite tokenize_step, E. cbn.
  destruct (Lexer.tokenize r); reflexivity.
Qed.

Lemma op_run_single_token_witness :
  Lexer.tokenize ("<=+-" ++ "7")
  = Ok [("OP", TStr "<=+-"); ("NUMBER", TInt 7)].
Proof.
  destruct op_run_single_token as [H _].
  destruct (H "<=+-" "7") as [_ E].
  - discriminate.
  - reflexivity.
  - reflexivity.
  - rewrite E. reflexivity.
Defined.

(* ===================================================================== *)
(** ** Facts about the interpreter *)
(* ===================================================================== *)

Section Frame.
Import Interpreter.

Lemma apply_operation_state op l r self :
  snd (apply_operation op l r self) = self.
Proof.
  unfold apply_operation, lift, ret, raise.
  repeat destruct (op_is op _); reflexivity.
Qed.

Lemma evaluate_state e self : snd (evaluate e self) = self.
Proof.
  revert self. induction e as [op l IHl r IHr | token_type v]; intros self.
  - simpl. unfold bind.
    pose proof (IHl self) as Hl. destruct (evaluate l self) as [[lv|err] s1].
    + simpl in Hl. subst s1.
      pose proof (IHr self) as Hr.
      destruct (evaluate r self) as [[rv|err] s2]; simpl in Hr; subst s2.
      * apply apply_operation_state.
      * reflexivity.
    + exact Hl.
  - simpl. unfold ret, raise.
    repeat match goal with
           | |- context [if ?b then _ else _] => destruct b
           end; reflexivity.
Qed.

(** [evaluate] as a function of the expression alone. *)
Lemma evaluate_pure e self : evaluate e self = (fst (evaluate e self), self).
Proof.
  rewrite <- (evaluate_state e self) at 3. now destruct (evaluate e self).
Qed.

Lemma keeps_ret k : keeps k (ret tt).
Proof. intros self. reflexivity. Qed.

Lemma keeps_seq k (m1 m2 : M t unit) :
  keeps k m1 -> keeps k m2 -> keeps k (m1 ;;; m2).
Proof.
  intros H1 H2 self. unfold bind. specialize (H1 self).
  destruct (m1 self) as [[[]|err] s1]; simpl in *.
  - now rewrite H2.
  - exact H1.
Qed.

Lemma keeps_after_evaluate k e (f : value -> M t unit) :
  (forall v, keeps k (f v)) -> keeps k (v <- evaluate e ;; f v).
Proof.
  intros Hf self. unfold bind. rewrite evaluate_pure.
  destruct (fst (evaluate e self)) as [v|err]; [apply Hf | reflexivity].
Qed.

Lemma keeps_assign k name v : name <> k -> keeps k (assign name v).
Proof. intros Hne self. simpl. now apply lookup_insert_ne. Qed.

Lemma keeps_interpret_with k execute block :
  Forall (fun node => keeps k (execute node)) block ->
  keeps k (interpret_with execute block).
Proof.
  induction 1 as [|node rest Hn _ IH]; simpl.
  - apply keeps_ret.
  - now apply keeps_seq.
Qed.

Lemma keeps_for_range k body i count :
  (forall j, keeps k (body j)) -> keeps k (for_range body i count).
Proof.
  intros Hb. revert i. induction count as [|count IH]; intros i; simpl.
  - apply keeps_ret.
  - apply keeps_seq; [apply Hb | apply IH].
Qed.

Lemma Forall_keeps k (P : stmt -> Prop) block :
  Forall (fun node => assigns k node = false -> P node) block ->
  existsb (assigns k) block = false ->
  Forall P block.
Proof.
  induction 1 as [|node rest Hn _ IH]; simpl; intros H; constructor;
    apply orb_false_elim in H as [H1 H2]; auto.
Qed.

(** A statement leaves alone every name it does not bind. *)
Lemma execute_keeps k node :
  assigns k node = false -> keeps k (execute node).
Proof.
  induction node as [type_ name value | condition if_block else_block IHa IHb
                    | ident range_expr block IH | e] using stmt_ind;
    intros Hk.
  - simpl in *. destruct value as [e|]; [|apply keeps_ret].
    apply keeps_after_evaluate. intros v. apply keeps_assign.
    intros ->. now rewrite bool_decide_eq_true_2 in Hk.
  - simpl in Hk. apply orb_false_elim in Hk as [Ha Hb].
    cbn [execute]. apply keeps_after_evaluate. intros c.
    destruct (Py.truthy c).
    + apply keeps_interpret_with. now apply (Forall_keeps k _ if_block).
    + destruct else_block as [[|node rest]|]; try apply keeps_ret.
      apply (keeps_interpret_with k execute (node :: rest)).
      now apply (Forall_keeps k _ (node :: rest)).
  - simpl in Hk. apply orb_false_elim in Hk as [Hi Hb].
    cbn [execute]. apply keeps_after_evaluate. intros bound.
    intros self. unfold bind, lift.
    destruct (Py.index bound) as [n|err]; [|reflexivity].
    apply keeps_for_range. intros j. apply keeps_seq.
    + apply keeps_assign. intros ->. now rewrite bool_decide_eq_true_2 in Hi.
    + apply keeps_interpret_with. now apply (Forall_keeps k _ block).
  - cbn [execute]. apply keeps_after_evaluate. intros v self.
    unfold print. destruct (printable v); reflexivity.
Qed.

Lemma interpret_keeps k block :
  existsb (assigns k) block = false -> keeps k (interpret block).
Proof.
  intros H. apply keeps_interpret_with.
  apply (Forall_keeps k _ block); [|exact H].
  apply Forall_forall. intros node _. apply execute_keeps.
Qed.

End Frame.

(* ===================================================================== *)
(** ** Nothing runs out of fuel *)
(* ===================================================================== *)

Section ParserFuel.
Import Parser.

Lemma within_ret {A} n (a : A) : within n (ret a).
Proof. intros self Hw Hn. repeat split; [discriminate | exact Hw | simpl; lia]. Qed.

Lemma within_raise {A} n e : e <> OutOfFuel -> within n (@raise Parser.t A e).
Proof.
  intros He self Hw Hn. repeat split; [simpl; congruence | exact Hw | simpl; lia].
Qed.

Lemma within_gets {A} n (f : Parser.t -> A) : within n (gets f).
Proof. intros self Hw Hn. repeat split; [discriminate | exact Hw | simpl; lia]. Qed.

Lemma within_bind {A B} n (m : M Parser.t A) (k : A -> M Parser.t B) :
  within n m -> (forall a, within n (k a)) -> within n (a <- m ;; k a).
Proof.
  intros Hm Hk self Hw Hn. destruct (Hm self Hw Hn) as (H1 & H2 & H3).
  unfold fine_at, bind. destruct (m self) as [[a|err] s1]; simpl in *.
  - destruct (Hk a s1 H2) as (K1 & K2 & K3); [lia|].
    repeat split; auto. lia.
  - repeat split; auto. intros E. apply H1. now inversion E.
Qed.

Lemma within_mono {A} n n' (m : M Parser.t A) :
  (n' <= n)%nat -> within n m -> within n' m.
Proof. intros Hle Hm self Hw Hn. apply Hm; [exact Hw | lia]. Qed.

Lemma next_token_step self :
  well_formed self ->
  well_formed (snd (next_token self))
  /\ (remaining (snd (next_token self))
      = remaining self
        - match current_token self with Some _ => 1 | None => 0 end)%nat.
Proof.
  destruct self as [toks cur]. unfold well_formed, remaining. simpl.
  intros Hw. destruct toks as [|tok toks]; simpl.
  - split; [auto | destruct cur; simpl; lia].
  - destruct cur as [c|]; [|specialize (Hw eq_refl); discriminate].
    split; [discriminate | simpl; lia].
Qed.

Lemma within_next_token n : within n next_token.
Proof.
  intros self Hw Hn. destruct (next_token_step self Hw) as [H1 H2].
  repeat split; [discriminate | exact H1 | lia].
Qed.

(** After [next_token] with a look-ahead, one token less is left. *)
Lemma after_next {A} n (m : M Parser.t A) self :
  well_formed self -> current_token self <> None ->
  (remaining self <= S n)%nat -> within n m ->
  fine_at (next_token ;;; m) self
  /\ (remaining (snd ((next_token ;;; m) self)) < remaining self)%nat.
Proof.
  intros Hw Hc Hn Hm. destruct (next_token_step self Hw) as [H1 H2].
  assert (remaining self >= 1)%nat as Hpos.
  { unfold remaining. destruct (current_token self); [lia | congruence]. }
  assert (remaining (snd (next_token self)) + 1 = remaining self)%nat as H3.
  { rewrite H2. destruct (current_token self); [lia | congruence]. }
  unfold fine_at.
  assert ((next_token ;;; m) self = m (snd (next_token self))) as ->
      by reflexivity.
  destruct (Hm (snd (next_token self)) H1) as (K1 & K2 & K3); [lia|].
  split; [split; [exact K1 | split; [exact K2 | lia]] | lia].
Qed.

Lemma within_strict_bind {A B} n (m : M Parser.t A) (k : A -> M Parser.t B) :
  within_strict n m -> (forall a, within (n - 1) (k a)) ->
  within n (a <- m ;; k a).
Proof.
  intros [Hm Hs] Hk self Hw Hn. destruct (Hm self Hw Hn) as (H1 & H2 & H3).
  specialize (Hs self Hw Hn).
  unfold fine_at, bind. destruct (m self) as [[a|err] s1]; simpl in *.
  - specialize (Hs eq_refl).
    destruct (Hk a s1 H2) as (K1 & K2 & K3); [lia|].
    repeat split; auto. lia.
  - repeat split; auto. intros E. apply H1. now inversion E.
Qed.

Ltac within_step :=
  first
    [ apply within_ret
    | apply within_raise; discriminate
    | apply within_gets
    | apply within_next_token
    | assumption
    | apply within_bind; [|intros ?]
    | match goal with
      | |- within _ (if ?b then _ else _) => destruct b
      | |- within _ (match ?x with _ => _ end) => destruct x
      end ].

Lemma within_current_value_is n text : within n (current_value_is text).
Proof. unfold current_value_is. repeat within_step. Qed.

Lemma within_current_kind_is n k : within n (current_kind_is k).
Proof. unfold current_kind_is. repeat within_step. Qed.

Lemma within_skip_colon n : within n skip_colon.
Proof.
  unfold skip_colon. apply within_bind; [apply within_current_value_is|].
  intros []; repeat within_step.
Qed.

Lemma within_index1 n tok : within n (index1 tok).
Proof. unfold index1. repeat within_step. Qed.

Lemma within_close_block n statements : within n (close_block statements).
Proof.
  unfold close_block. apply within_bind; [apply within_current_value_is|].
  intros []; repeat within_step.
Qed.

#[local] Hint Resolve within_current_value_is within_current_kind_is
  within_skip_colon within_index1 within_close_block : core.

Ltac within_all := repeat first [ within_step | solve [auto] ].

Lemma bind_gets_at {A B} (f : Parser.t -> A) (k : A -> M Parser.t B) self :
  (a <- gets f ;; k a) self = k (f self) self.
Proof. reflexivity. Qed.

Lemma fine_strict_raise {A} e self :
  e <> OutOfFuel -> well_formed self -> fine_strict_at (@raise Parser.t A e) self.
Proof.
  intros He Hw. split; [|intros Hok; discriminate Hok].
  repeat split; [simpl; congruence | exact Hw | simpl; lia].
Qed.

Lemma fine_strict_next {A} n (m : M Parser.t A) self :
  well_formed self -> current_token self <> None ->
  (remaining self <= S n)%nat -> within n m ->
  fine_strict_at (next_token ;;; m) self.
Proof.
  intros Hw Hc Hn Hm. destruct (after_next n m self Hw Hc Hn Hm) as [F1 F2].
  split; [exact F1 | intros _; exact F2].
Qed.

Lemma fine_strict_within {A} n (m : M Parser.t A) :
  (forall self, well_formed self -> (remaining self <= n)%nat ->
                fine_strict_at m self) ->
  within_strict n m.
Proof. intros H. split; intros self Hw Hr; now apply H. Qed.

Lemma has_lookahead self tok :
  current_token self = Some tok -> (remaining self >= 1)%nat.
Proof. unfold remaining. intros ->. lia. Qed.

Lemma expression_within fuel :
  forall n, (n < fuel)%nat -> within_strict n (parse_expression fuel).
Proof.
  induction fuel as [|fuel IH]; intros n Hn; [lia|].
  apply fine_strict_within. intros self Hw Hr.
  unfold fine_strict_at, fine_at. cbn [parse_expression].
  rewrite !bind_gets_at.
  destruct (current_token self) as [[token_type value]|] eqn:Ec;
    [|now apply (fine_strict_raise TypeError)].
  pose proof (has_lookahead self _ Ec) as Hpos.
  assert (within (n - 1) (parse_expression fuel)) as He by (apply IH; lia).
  destruct (String.eqb token_type "LPAREN").
  { apply (fine_strict_next (n - 1)); [exact Hw | congruence | lia |].
    within_all. }
  destruct (in_list token_type ["NUMBER"; "STRING"; "IDENT"]).
  { apply (fine_strict_next (n - 1)); [exact Hw | congruence | lia |].
    within_all. }
  now apply fine_strict_raise.
Qed.

Section Productions.
Variable n : nat.
Variable expression : M Parser.t expr.
Variable block : M Parser.t (list stmt).
Hypothesis expression_fine : within n expression.
Hypothesis block_fine : within n block.

Lemma statement_dispatch_fine self :
  well_formed self -> (remaining self <= S n)%nat ->
  fine_strict_at (statement_dispatch expression block) self.
Proof.
  intros Hw Hr. unfold fine_strict_at, fine_at, statement_dispatch.
  rewrite !bind_gets_at.
  destruct (current_token self) as [[k v]|] eqn:Ec;
    [|now apply (fine_strict_raise TypeError)].
  assert (current_token self <> None) as Hc by congruence.
  destruct (String.eqb k "INT" || String.eqb k "STRING").
  { unfold parse_declaration. rewrite !bind_gets_at.
    apply (fine_strict_next n); auto. within_all. }
  destruct (String.eqb k "IF").
  { unfold parse_if. apply (fine_strict_next n); auto. within_all. }
  destruct (String.eqb k "FOR").
  { unfold parse_for. apply (fine_strict_next n); auto. within_all. }
  destruct (String.eqb k "PRINT").
  { unfold parse_print. apply (fine_strict_next n); auto. within_all. }
  now apply fine_strict_raise.
Qed.

End Productions.

Lemma statement_within fuel :
  (forall n, (2 * n + 1 <= fuel)%nat -> within_strict n (parse_statement fuel))
  /\ (forall n, (2 * n + 2 <= fuel)%nat -> within n (block_loop fuel)).
Proof.
  induction fuel as [|fuel [IHs IHl]]; [split; intros n Hn; lia|].
  split; intros n Hn.
  - apply fine_strict_within. intros self Hw Hr.
    cbn [parse_statement].
    destruct n as [|n].
    { assert (current_token self = None) as Ec.
      { unfold remaining in Hr. destruct (current_token self); [lia | reflexivity]. }
      unfold fine_strict_at, fine_at, statement_dispatch.
      rewrite !bind_gets_at, Ec. now apply (fine_strict_raise TypeError). }
    apply (statement_dispatch_fine n); auto.
    + apply (expression_within fuel n). lia.
    + apply within_bind; [apply IHl; lia | intros a; apply within_close_block].
  - intros self Hw Hr. unfold fine_at. cbn [block_loop].
    rewrite !bind_gets_at.
    destruct (current_token self) as [[k v]|] eqn:Ec;
      [|now apply (within_ret n [])].
    pose proof (has_lookahead self _ Ec) as Hpos.
    destruct (negb (bool_decide (v = TStr "}")));
      [|now apply (within_ret n [])].
    apply (within_strict_bind n); auto.
    + apply IHs. lia.
    + intros s. apply within_bind; [apply IHl; lia | intros ss; apply within_ret].
Qed.

Lemma program_within fuel :
  forall n, (2 * n + 2 <= fuel)%nat -> within n (parse_program fuel).
Proof.
  induction fuel as [|fuel IH]; intros n Hn; [lia|].
  intros self Hw Hr. unfold fine_at. cbn [parse_program].
  rewrite !bind_gets_at.
  destruct (current_token self) as [tok|] eqn:Ec;
    [|now apply (within_ret n [])].
  pose proof (has_lookahead self _ Ec) as Hpos.
  apply (within_strict_bind n); auto.
  - apply (statement_within fuel). lia.
  - intros s. apply within_bind; [apply IH; lia | intros ss; apply within_ret].
Qed.

Lemma init_well_formed toks :
  well_formed (init toks) /\ remaining (init toks) = List.length toks.
Proof.
  destruct toks as [|tok toks]; unfold well_formed, remaining; simpl;
    split; auto; try discriminate; lia.
Qed.

(** The fuel [parse] gives is enough: it never runs out. *)
Lemma parse_has_fuel toks : parse toks <> Err OutOfFuel.
Proof.
  destruct (init_well_formed toks) as [Hw Hr].
  apply (program_within (fuel_for toks) (List.length toks));
    auto; unfold fuel_for; lia.
Qed.

End ParserFuel.

Lemma token_of_match_error k v e :
  Lexer.token_of_match k v = Err e -> e <> OutOfFuel.
Proof.
  unfold Lexer.token_of_match, int.
  repeat match goal with
         | |- context [if ?b then _ else _] => destruct b
         end; intros H; inversion H; discriminate.
Qed.

(** The fuel [tokenize] gives is enough: it never runs out. *)
Lemma tokenize_has_fuel s : Lexer.tokenize s <> Err OutOfFuel.
Proof.
  remember (String.length s) as n eqn:Hn. revert s Hn.
  induction n as [n IH] using lt_wf_ind. intros s Hn.
  rewrite tokenize_step.
  destruct (Lexer.tok_regex s) as [[[k v] rest]|] eqn:E; [|discriminate].
  pose proof (tok_regex_shorter _ _ _ _ E) as Hl.
  destruct (Lexer.token_of_match k v) as [o|err] eqn:Et.
  - pose proof (IH (String.length rest) ltac:(lia) rest eq_refl) as Hrest.
    destruct (Lexer.tokenize rest) as [ts|err]; [discriminate|].
    intros H. apply Hrest. now inversion H.
  - apply token_of_match_error in Et. intros H. apply Et. now inversion H.
Qed.

(** Parsing a source text ends with a syntax tree or with a Python
    exception. *)
Lemma parse_source_has_fuel source_code :
  parse_source source_code <> Err OutOfFuel.
Proof.
  unfold parse_source.
  pose proof (tokenize_has_fuel source_code) as Ht.
  destruct (Lexer.tokenize source_code) as [toks|err].
  - apply parse_has_fuel.
  - intros H. apply Ht. now inversion H.
Qed.

Section InterpreterErrors.
Import Interpreter.

Ltac split_matches :=
  repeat (cbv beta iota;
          match goal with
          | |- context [match ?x with _ => _ end] =>
              lazymatch x with
              | context [match _ with _ => _ end] => fail
              | _ => destruct x
              end
          end).

Ltac python_error :=
  unfold Py.float_op, Py.int_true_divide, Py.float_div, Py.to_float,
    Py.float_of_int, Py.repeat_str, Py.repeat_tuple, Py.repeat_count;
  cbn [Py.as_int Py.is_number andb];
  split_matches; discriminate.

Lemma compare_tuples_raises a b e :
  Py.compare_tuples a b = Err e -> e = TypeError.
Proof.
  revert b. induction a as [|x a IH]; intros [|y b]; simpl; try discriminate.
  destruct (bool_decide (x = y)); [apply IH|].
  destruct x, y; simpl; intros H; inversion H; reflexivity.
Qed.

Lemma py_operators_raise (l r : value) :
  Py.add l r <> Err OutOfFuel /\ Py.sub l r <> Err OutOfFuel
  /\ Py.mul l r <> Err OutOfFuel /\ Py.truediv l r <> Err OutOfFuel
  /\ (forall test, Py.order test l r <> Err OutOfFuel).
Proof.
  split; [|split; [|split; [|split]]].
  - unfold Py.add. destruct l, r; python_error.
  - unfold Py.sub. destruct l, r; python_error.
  - unfold Py.mul. destruct l, r; python_error.
  - unfold Py.truediv. destruct l, r; python_error.
  - intros test. unfold Py.order. destruct l, r; try python_error.
    destruct (Py.compare_tuples items items0) as [c|e] eqn:E; [discriminate|].
    apply compare_tuples_raises in E. subst e. discriminate.
Qed.

Lemma apply_operation_raises op l r self :
  fst (apply_operation op l r self) <> Err OutOfFuel.
Proof.
  destruct (py_operators_raise l r) as (H1 & H2 & H3 & H4 & H5).
  unfold apply_operation, lift, ret, raise.
  repeat destruct (op_is op _); simpl; auto; discriminate.
Qed.

Lemma evaluate_raises e self : fst (evaluate e self) <> Err OutOfFuel.
Proof.
  revert self. induction e as [op l IHl r IHr | token_type v]; intros self.
  - simpl. unfold bind. specialize (IHl self).
    destruct (evaluate l self) as [[lv|err] s1]; simpl in *.
    + specialize (IHr s1).
      destruct (evaluate r s1) as [[rv|err] s2]; simpl in *.
      * apply apply_operation_raises.
      * exact IHr.
    + exact IHl.
  - simpl. unfold ret, raise.
    repeat match goal with
           | |- context [if ?b then _ else _] => destruct b
           end; discriminate.
Qed.

Lemma has_fuel_ret {S A} (a : A) : has_fuel (@ret S A a).
Proof. intros s. discriminate. Qed.

Lemma has_fuel_bind {S A B} (m : M S A) (k : A -> M S B) :
  has_fuel m -> (forall a, has_fuel (k a)) -> has_fuel (a <- m ;; k a).
Proof.
  intros Hm Hk s. unfold bind. specialize (Hm s).
  destruct (m s) as [[a|err] s1]; simpl in *; [apply Hk|].
  intros E. apply Hm. now inversion E.
Qed.

Lemma has_fuel_modify {S} (f : S -> S) : has_fuel (modify f).
Proof. intros s. discriminate. Qed.

Lemma has_fuel_print v : has_fuel (print v).
Proof. intros s. unfold print. destruct (printable v); discriminate. Qed.

Lemma has_fuel_evaluate e : has_fuel (evaluate e).
Proof. intros s. apply evaluate_raises. Qed.

Lemma has_fuel_interpret_with execute block :
  Forall (fun node => has_fuel (execute node)) block ->
  has_fuel (interpret_with execute block).
Proof.
  induction 1 as [|node rest Hn _ IH]; simpl.
  - apply has_fuel_ret.
  - apply has_fuel_bind; auto.
Qed.

Lemma has_fuel_for_range body i count :
  (forall j, has_fuel (body j)) -> has_fuel (for_range body i count).
Proof.
  intros Hb. revert i. induction count as [|count IH]; intros i; simpl.
  - apply has_fuel_ret.
  - apply has_fuel_bind; auto.
Qed.

Lemma has_fuel_execute node : has_fuel (execute node).
Proof.
  induction node as [type_ name value | condition if_block else_block IHa IHb
                    | ident range_expr block IH | e] using stmt_ind;
    cbn [execute].
  - destruct value as [e|]; [|apply has_fuel_ret].
    apply has_fuel_bind; [apply has_fuel_evaluate|].
    intros v. apply has_fuel_modify.
  - apply has_fuel_bind; [apply has_fuel_evaluate|]. intros c.
    destruct (Py.truthy c); [now apply has_fuel_interpret_with|].
    destruct else_block as [[|node rest]|]; try apply has_fuel_ret.
    now apply (has_fuel_interpret_with execute (node :: rest)).
  - apply has_fuel_bind; [apply has_fuel_evaluate|]. intros bound.
    apply has_fuel_bind.
    + intros s. unfold lift, Py.index. simpl.
      destruct (Py.as_int bound); discriminate.
    + intros n. apply has_fuel_for_range. intros j.
      apply has_fuel_bind; [apply has_fuel_modify|].
      intros _. now apply has_fuel_interpret_with.
  - apply has_fuel_bind; [apply has_fuel_evaluate|].
    intros v. apply has_fuel_print.
Qed.

(** A run ends normally or with a Python exception. *)
Lemma run_has_fuel source_code : fst (run source_code) <> Err OutOfFuel.
Proof.
  unfold run, main. apply has_fuel_bind.
  - intros s. apply tokenize_has_fuel.
  - intros toks. apply has_fuel_bind.
    + intros s. apply parse_has_fuel.
    + intros ast. apply has_fuel_interpret_with.
      apply Forall_forall. intros node _. apply has_fuel_execute.
Qed.

End InterpreterErrors.

(* ===================================================================== *)
(** ** Expressions: parsing and evaluation *)
(* ===================================================================== *)

Lemma in_list3 (k a b c : string) :
  Parser.in_list k [a; b; c] = true -> k = a \/ k = b \/ k = c.
Proof.
  unfold Parser.in_list. simpl. rewrite orb_false_r.
  intros H. apply orb_prop in H as [H|H]; [left; now apply String.eqb_eq|].
  apply orb_prop in H as [H|H]; [right; left | right; right];
    now apply String.eqb_eq.
Qed.

(** An atom followed by an operator token: the node is an [OPERATION]
    whose right child is whatever the rest of the tokens parses to. *)
Lemma parse_expression_operation fuel token_type value op rest :
  Parser.in_list token_type ["NUMBER"; "STRING"; "IDENT"] = true ->
  Parser.parse_expression (S fuel)
    (Parser.mk (("OP", op) :: rest) (Some (token_type, value)))
  = (right <- Parser.parse_expression fuel ;;
     ret (OPERATION op (Atom token_type value) right)) (Parser.init rest).
Proof.
  intros H. apply in_list3 in H as [-> | [-> | ->]]; reflexivity.
Qed.

(** C2. Expression parsing is flat and right-associative: an atom followed
    by an operator token and a further expression becomes an [OPERATION]
    node whose right child is the whole remaining chain. So
    [int x = 1 - 2 - 3] parses to [1 - (2 - 3)] and binds [x] to 2. *)
Theorem expression_right_associative :
  (forall fuel token_type value op rest,
      Parser.in_list token_type ["NUMBER"; "STRING"; "IDENT"] = true ->
      Parser.parse_expression (S fuel)
        (Parser.mk (("OP", op) :: rest) (Some (token_type, value)))
      = (right <- Parser.parse_expression fuel ;;
         ret (OPERATION op (Atom token_type value) right)) (Parser.init rest))
  /\ parse_source "int x = 1 - 2 - 3"
     = Ok [DECLARE (TStr "int") (TStr "x")
             (Some (OPERATION (TStr "-") (Atom "NUMBER" (TInt 1))
                      (OPERATION (TStr "-") (Atom "NUMBER" (TInt 2))
                         (Atom "NUMBER" (TInt 3)))))]
  /\ fst (run "int x = 1 - 2 - 3") = Ok tt
  /\ variables_after "int x = 1 - 2 - 3" !! TStr "x" = Some (VInt 2).
Proof.
  split; [exact parse_expression_operation|].
  repeat split; vm_compute; reflexivity.
Qed.

Lemma expression_right_associative_witness :
  fst (Parser.parse_expression 3
         (Parser.mk [("OP", TStr "-"); ("NUMBER", TInt 2); ("OP", TStr "-");
                     ("NUMBER", TInt 3)]
            (Some ("NUMBER", TInt 1))))
  = Ok (OPERATION (TStr "-") (Atom "NUMBER" (TInt 1))
          (OPERATION (TStr "-") (Atom "NUMBER" (TInt 2))
             (Atom "NUMBER" (TInt 3)))).
Proof.
  destruct expression_right_associative as [H _].
  rewrite (H 2%nat "NUMBER" (TInt 1) (TStr "-")); reflexivity.
Defined.

(** C1 on the code. For the node the parser builds for an identifier,
    [evaluate] returns the node itself, a tuple, whether or not the name is
    bound: it neither looks the name up nor returns the name as a string.
    [print x] after [int x = 5], and [print undefined_var], both print the
    tuple. *)
Theorem identifier_evaluates_to_its_node :
  (forall (name : tokval) (self : Interpreter.t),
      Interpreter.evaluate (Atom "IDENT" name) self
      = (Ok (VTuple [TStr "IDENT"; name]), self))
  /\ parse_source "int x = 5 print x"
     = Ok [DECLARE (TStr "int") (TStr "x") (Some (Atom "NUMBER" (TInt 5)));
           PRINT (Atom "IDENT" (TStr "x"))]
  /\ variables_after "int x = 5 print x" !! TStr "x" = Some (VInt 5)
  /\ output_of "int x = 5 print x" = [VTuple [TStr "IDENT"; TStr "x"]]
  /\ output_of "print undefined_var"
     = [VTuple [TStr "IDENT"; TStr "undefined_var"]].
Proof.
  split; [intros name self; reflexivity|].
  repeat split; vm_compute; reflexivity.
Qed.




(* ===================================================================== *)
(** ** Statements: the environment *)
(* ===================================================================== *)

Lemma execute_declare type_ name init v self :
  fst (Interpreter.evaluate init self) = Ok v ->
  Interpreter.execute (DECLARE type_ name (Some init)) self
  = (Ok tt, Interpreter.mk (<[name := v]> (Interpreter.variables self))
              (Interpreter.stdout self)).
Proof.
  intros H. cbn [Interpreter.execute]. unfold bind.
  rewrite evaluate_pure, H. reflexivity.
Qed.

(** C9. Evaluating an expression never changes the variable environment:
    [evaluate], and [apply_operation] for every operator, hand back the
    interpreter as they got it, whether they return a value or raise. Only
    a declaration with an initializer, which binds its name to the value of
    the initializer, and a loop bind a name: a statement leaves the binding
    of every name alone that no such declaration or loop in it names. *)
Theorem evaluation_keeps_environment
    (e : expr) (op : tokval) (l r : value) (node : stmt) (k : tokval)
    (self : Interpreter.t) :
  snd (Interpreter.evaluate e self) = self
  /\ snd (Interpreter.apply_operation op l r self) = self
  /\ (assigns k node = false ->
      Interpreter.variables (snd (Interpreter.execute node self)) !! k
      = Interpreter.variables self !! k)
  /\ (forall type_ name v,
         fst (Interpreter.evaluate e self) = Ok v ->
         Interpreter.execute (DECLARE type_ name (Some e)) self
         = (Ok tt, Interpreter.mk (<[name := v]> (Interpreter.variables self))
                     (Interpreter.stdout self))).
Proof.
  split; [apply evaluate_state|].
  split; [apply apply_operation_state|].
  split; [intros H; now apply execute_keeps|].
  intros type_ name v H. now apply execute_declare.
Qed.

Lemma evaluation_keeps_environment_witness :
  let self := Interpreter.mk {[ TStr "x" := VInt 1 ]} [] in
  let node := IF (OPERATION (TStr "<") (Atom "NUMBER" (TInt 1))
                    (Atom "NUMBER" (TInt 2)))
                [DECLARE (TStr "int") (TStr "y") (Some (Atom "NUMBER" (TInt 3)));
                 PRINT (Atom "NUMBER" (TInt 4))]
                None in
  Interpreter.variables (snd (Interpreter.execute node self)) !! TStr "x"
  = Interpreter.variables self !! TStr "x"
  /\ Interpreter.execute
       (DECLARE (TStr "int") (TStr "y") (Some (Atom "NUMBER" (TInt 3)))) self
     = (Ok tt, Interpreter.mk (<[TStr "y" := VInt 3]> {[ TStr "x" := VInt 1 ]})
                 []).
Proof.
  intros self node.
  destruct (evaluation_keeps_environment
              (Atom "NUMBER" (TInt 3)) (TStr "+") (VInt 0) (VInt 0)
              node (TStr "x") self) as (_ & _ & H & Hd).
  split.
  - apply H. reflexivity.
  - apply (Hd (TStr "int") (TStr "y") (VInt 3)). reflexivity.
Defined.

Section ForLoop.
Import Interpreter.

Lemma indices_from_S i count :
  indices_from i (S count) = i :: indices_from (i + 1) count.
Proof.
  unfold indices_from. cbn [seq map]. rewrite Z.add_0_r. f_equal.
  rewrite <- seq_shift, map_map. apply map_ext. intros j. lia.
Qed.

Lemma for_range_iterations body i count :
  for_range body i count = iterations body (indices_from i count).
Proof.
  revert i. induction count as [|count IH]; intros i; [reflexivity|].
  rewrite indices_from_S. cbn [for_range]. rewrite IH. reflexivity.
Qed.

Lemma for_range_last body i count self :
  for_range body i (S count) self
  = (for_range body i count ;;; body (i + Z.of_nat count)) self.
Proof.
  revert i self. induction count as [|count IH]; intros i self.
  - cbn [for_range]. unfold bind, ret. rewrite Z.add_0_r.
    destruct (body i self) as [[[]|err] s1]; reflexivity.
  - change (for_range body i (S (S count)) self)
      with ((body i ;;; for_range body (i + 1) (S count)) self).
    change (for_range body i (S count))
      with (body i ;;; for_range body (i + 1) count).
    unfold bind. destruct (body i self) as [[[]|err] s1]; [|reflexivity].
    rewrite IH. unfold bind.
    replace (i + 1 + Z.of_nat count) with (i + Z.of_nat (S count)) by lia.
    reflexivity.
Qed.

Lemma execute_for ident range_expr block n self :
  fst (evaluate range_expr self) = Ok (VInt n) ->
  execute (FOR ident range_expr block) self
  = for_range (fun i => assign ident (VInt i) ;;; interpret block)
      0 (Z.to_nat n) self.
Proof.
  intros H. cbn [execute]. unfold bind at 1. rewrite evaluate_pure, H.
  reflexivity.
Qed.

Lemma for_final_binding ident block count self self' :
  existsb (assigns ident) block = false ->
  for_range (fun i => assign ident (VInt i) ;;; interpret block)
    0 (S count) self = (Ok tt, self') ->
  variables self' !! ident = Some (VInt (Z.of_nat count)).
Proof.
  intros Hb. rewrite for_range_last. unfold bind at 1.
  destruct (for_range _ 0 count self) as [[[]|err] s1]; [|discriminate].
  rewrite Z.add_0_l.
  change ((assign ident (VInt (Z.of_nat count)) ;;; interpret block) s1)
    with (interpret block
            (mk (<[ident := VInt (Z.of_nat count)]> (variables s1))
               (stdout s1))).
  intros H.
  pose proof (interpret_keeps ident block Hb
                (mk (<[ident := VInt (Z.of_nat count)]> (variables s1))
                   (stdout s1))) as Hk.
  rewrite H in Hk. cbn [snd variables] in Hk. rewrite Hk.
  apply lookup_insert_eq.
Qed.

End ForLoop.

(** C3, as stated, fails: the loop variable need not be bound to N-1 after
    a loop with N > 0, because the body can bind it too. The loop
    [for i in 2 : int i = 7 }] ends with [i] bound to 7. *)
Lemma for_loop_variable_rebound_by_body :
  ~ (forall (ident : tokval) (range_expr : expr) (block : list stmt) (n : Z)
            (self self' : Interpreter.t),
        fst (Interpreter.evaluate range_expr self) = Ok (VInt n) ->
        0 < n ->
        Interpreter.execute (FOR ident range_expr block) self = (Ok tt, self') ->
        Interpreter.variables self' !! ident = Some (VInt (n - 1))).
Proof.
  intros H.
  specialize (H (TStr "i") (Atom "NUMBER" (TInt 2))
                [DECLARE (TStr "int") (TStr "i") (Some (Atom "NUMBER" (TInt 7)))]
                2 Interpreter.init
                (Interpreter.mk {[ TStr "i" := VInt 7 ]} [])).
  assert (Some (VInt 7) = Some (VInt (2 - 1))) as E; [|discriminate E].
  rewrite <- H.
  - vm_compute. reflexivity.
  - reflexivity.
  - lia.
  - vm_compute. reflexivity.
Qed.

Example for_loop_rebound_source :
  parse_source "for i in 2 : int i = 7 }"
  = Ok [FOR (TStr "i") (Atom "NUMBER" (TInt 2))
          [DECLARE (TStr "int") (TStr "i") (Some (Atom "NUMBER" (TInt 7)))]]
  /\ variables_after "for i in 2 : int i = 7 }" !! TStr "i" = Some (VInt 7).
Proof. split; vm_compute; reflexivity. Qed.

(** C3, amended. When the range bound of a FOR node evaluates to the
    integer [n], executing the node runs, for i = 0, 1, ..., n-1 in this
    order, the binding of the loop variable to i followed by the whole
    body, one iteration after the other. When [n <= 0] nothing runs and the
    interpreter is left as it was. When [0 < n], the loop completes and no
    statement of the body binds the loop variable, the loop variable is
    bound to [n - 1] after the loop. *)
Theorem for_loop_semantics
    (ident : tokval) (range_expr : expr) (block : list stmt) (n : Z)
    (self : Interpreter.t) :
  fst (Interpreter.evaluate range_expr self) = Ok (VInt n) ->
  Interpreter.execute (FOR ident range_expr block) self
  = iterations (fun i => Interpreter.assign ident (VInt i) ;;;
                         Interpreter.interpret block)
      (indices_from 0 (Z.to_nat n)) self
  /\ (n <= 0 ->
      Interpreter.execute (FOR ident range_expr block) self = (Ok tt, self))
  /\ (0 < n ->
      existsb (assigns ident) block = false ->
      forall self',
        Interpreter.execute (FOR ident range_expr block) self = (Ok tt, self') ->
        Interpreter.variables self' !! ident = Some (VInt (n - 1))).
Proof.
  intros H. rewrite (execute_for ident range_expr block n self H).
  split; [now rewrite for_range_iterations|].
  split.
  - intros Hn. replace (Z.to_nat n) with 0%nat by lia. reflexivity.
  - intros Hn Hb self'.
    destruct (Z.to_nat n) as [|count] eqn:E; [lia|].
    intros Hrun. rewrite (for_final_binding ident block count self self' Hb Hrun).
    do 2 f_equal. lia.
Qed.

Lemma for_loop_semantics_witness :
  let body := [PRINT (Atom "NUMBER" (TInt 7))] in
  Interpreter.variables
    (snd (Interpreter.execute (FOR (TStr "i") (Atom "NUMBER" (TInt 3)) body)
            Interpreter.init))
    !! TStr "i" = Some (VInt (3 - 1))
  /\ Interpreter.execute (FOR (TStr "i") (Atom "NUMBER" (TInt 0)) body)
       Interpreter.init
     = (Ok tt, Interpreter.init).
Proof.
  intros body. split.
  - destruct (for_loop_semantics (TStr "i") (Atom "NUMBER" (TInt 3))
                body 3 Interpreter.init) as (_ & _ & H).
    + reflexivity.
    + apply H.
      * lia.
      * reflexivity.
      * vm_compute. reflexivity.
  - destruct (for_loop_semantics (TStr "i") (Atom "NUMBER" (TInt 0))
                body 0 Interpreter.init) as (_ & H & _).
    + reflexivity.
    + apply H. lia.
Defined.

(* ===================================================================== *)
(** ** The parser: failures and dispatch *)
(* ===================================================================== *)

(** C4 on the code. Where the input ends at the point an expression or a
    name is required, the parser does not raise its own error: it indexes
    the look-ahead, which is [None], and the Python runtime raises a
    TypeError. A number in the place of the declared name is accepted. *)
Theorem parse_at_end_of_input :
  parse_source "print" = Err TypeError
  /\ Parser.parse [("PRINT", TStr "print")] = Err TypeError
  /\ (forall fuel, Parser.parse_expression (S fuel) (Parser.mk [] None)
                   = (Err TypeError, Parser.mk [] None))
  /\ parse_source "int" = Err TypeError
  /\ parse_source "int x = (1" = Err TypeError
  /\ parse_source "int 5 = 3"
     = Ok [DECLARE (TStr "int") (TInt 5) (Some (Atom "NUMBER" (TInt 3)))].
Proof.
  repeat split; vm_compute; reflexivity.
Qed.

Section Dispatch.
Import Parser.

Lemma no_declaration_bind {A} (m : M Parser.t A) (k : A -> M Parser.t stmt) :
  (forall a, no_declaration (k a)) -> no_declaration (a <- m ;; k a).
Proof.
  intros Hk self type_ name value self'. unfold bind.
  destruct (m self) as [[a|err] s1]; [apply Hk | discriminate].
Qed.

Lemma no_declaration_raise e : no_declaration (raise e).
Proof. intros self type_ name value self'. discriminate. Qed.

Lemma no_declaration_if expression block :
  no_declaration (parse_if expression block).
Proof.
  unfold parse_if. repeat (apply no_declaration_bind; intros ?).
  intros self type_ name value self'. discriminate.
Qed.

Lemma no_declaration_for expression block :
  no_declaration (parse_for expression block).
Proof.
  unfold parse_for. repeat (apply no_declaration_bind; intros ?).
  intros self type_ name value self'. discriminate.
Qed.

Lemma no_declaration_print expression :
  no_declaration (parse_print expression).
Proof.
  unfold parse_print. repeat (apply no_declaration_bind; intros ?).
  intros self type_ name value self'. discriminate.
Qed.

Lemma parse_statement_unfold fuel :
  parse_statement (S fuel)
  = statement_dispatch (parse_expression fuel) (parse_block fuel).
Proof. reflexivity. Qed.

Lemma dispatch_declaration fuel k v toks :
  k = "INT" \/ k = "STRING" ->
  parse_statement (S fuel) (mk toks (Some (k, v)))
  = parse_declaration (parse_expression fuel) (mk toks (Some (k, v))).
Proof. intros [-> | ->]; reflexivity. Qed.

Lemma dispatch_only_declaration fuel k v toks type_ name value self' :
  parse_statement fuel (mk toks (Some (k, v)))
  = (Ok (DECLARE type_ name value), self') ->
  k = "INT" \/ k = "STRING".
Proof.
  destruct fuel as [|fuel]; [discriminate|].
  cbn [parse_statement]. unfold statement_dispatch.
  unfold bind at 1, gets at 1. cbn [current_token].
  destruct (String.eqb k "INT") eqn:E1;
    [apply String.eqb_eq in E1; auto|].
  destruct (String.eqb k "STRING") eqn:E2;
    [apply String.eqb_eq in E2; auto|].
  cbn [orb]. intros H. exfalso. revert H.
  destruct (String.eqb k "IF"); [apply no_declaration_if|].
  destruct (String.eqb k "FOR"); [apply no_declaration_for|].
  destruct (String.eqb k "PRINT"); [apply no_declaration_print|].
  apply no_declaration_raise.
Qed.

End Dispatch.

(** C5 on the code. The kind of a keyword is its text in upper case, so
    the keyword [string] gets the kind STRING, which is the name of the
    pattern of string literals and so the kind of their tokens too: no
    token has the kind STRING_TYPE. The dispatch of [parse_statement], which
    begins a declaration on the kinds INT and STRING and on no other, takes
    a string literal for the keyword: the text ["a" x = 1] is parsed as the
    declaration of [x] with the type [a], and run it binds [x] to 1, where a
    statement that starts with a string literal is no declaration. *)
Theorem string_keyword_and_dispatch :
  Lexer.tokenize "string" = Ok [("STRING", TStr "string")]
  /\ Lexer.tokenize (quoted "a") = Ok [("STRING", TStr "a")]
  /\ "STRING" <> "STRING_TYPE"
  /\ parse_source (quoted "a" ++ " x = 1")
     = Ok [DECLARE (TStr "a") (TStr "x") (Some (Atom "NUMBER" (TInt 1)))]
  /\ variables_after (quoted "a" ++ " x = 1") !! TStr "x" = Some (VInt 1)
  /\ Lexer.tokenize "string" = Ok [(upper "string", TStr "string")]
  /\ upper "string" = "STRING"
  /\ (forall body, all_chars not_quote body = true ->
        Lexer.tok_regex (quoted body) = Some ("STRING", quoted body, EmptyString)
        /\ Lexer.token_of_match "STRING" (quoted body)
           = Ok (Some ("STRING", TStr body)))
  /\ (forall fuel k v toks,
        k = "INT" \/ k = "STRING" ->
        Parser.parse_statement (S fuel) (Parser.mk toks (Some (k, v)))
        = Parser.parse_declaration (Parser.parse_expression fuel)
            (Parser.mk toks (Some (k, v))))
  /\ (forall fuel k v toks type_ name value self',
        Parser.parse_statement fuel (Parser.mk toks (Some (k, v)))
        = (Ok (DECLARE type_ name value), self') ->
        k = "INT" \/ k = "STRING").
Proof.
  split; [vm_compute; reflexivity|].
  split; [vm_compute; reflexivity|].
  split; [discriminate|].
  split; [vm_compute; reflexivity|].
  split; [vm_compute; reflexivity|].
  split; [vm_compute; reflexivity|].
  split; [vm_compute; reflexivity|].
  split.
  { intros body Hb. split.
    - unfold quoted. rewrite <- (append_nil_r (body ++ Lexer.single quote)) at 1.
      rewrite append_assoc. apply tok_regex_string. exact Hb.
    - change (Lexer.token_of_match "STRING" (quoted body))
        with (@Ok (option token)
                (Some ("STRING", TStr (strip_ends (quoted body))))).
      unfold quoted, strip_ends, Lexer.single.
      now rewrite drop_last_append. }
  split; [exact dispatch_declaration | exact dispatch_only_declaration].
Qed.

Lemma string_keyword_and_dispatch_witness :
  Parser.parse_statement 2
    (Parser.mk [("IDENT", TStr "s")] (Some ("STRING", TStr "string")))
  = Parser.parse_declaration (Parser.parse_expression 1)
      (Parser.mk [("IDENT", TStr "s")] (Some ("STRING", TStr "string")))
  /\ ("STRING" = "INT" \/ "STRING" = "STRING")
  /\ Lexer.token_of_match "STRING" (quoted "a b")
     = Ok (Some ("STRING", TStr "a b")).
Proof.
  destruct string_keyword_and_dispatch
    as (_ & _ & _ & _ & _ & _ & _ & H0 & H1 & H2).
  split; [|split].
  - apply H1. right. reflexivity.
  - apply (H2 2%nat "STRING" (TStr "string") [("IDENT", TStr "s")]
              (TStr "string") (TStr "s") None (Parser.mk [] None)).
    vm_compute. reflexivity.
  - apply (H0 "a b"). reflexivity.
Defined.

(* ===================================================================== *)
(** ** The whole program *)
(* ===================================================================== *)

Lemma run_tokenize_error source_code e :
  Lexer.tokenize source_code = Err e ->
  run source_code = (Err e, Interpreter.init).
Proof.
  intros H. unfold run, main, bind, Interpreter.lift. rewrite H. reflexivity.
Qed.

Section Unmatched.
Import Lexer.

Lemma span_before p s c r :
  p c = false ->
  span p (s ++ String c r) = (fst (span p s), snd (span p s) ++ String c r).
Proof.
  intros Hc. induction s as [|a s IH].
  - rewrite append_nil_l. simpl. now rewrite Hc.
  - rewrite append_cons. simpl. destruct (p a); [|reflexivity].
    rewrite IH. destruct (span p s). reflexivity.
Qed.

Lemma span_rest_all p q s :
  all_chars q s = true -> all_chars q (snd (span p s)) = true.
Proof.
  induction s as [|a s IH]; simpl; [auto|].
  intros H. destruct (p a).
  - apply andb_prop in H as [_ H]. destruct (span p s). now apply IH.
  - exact H.
Qed.

Lemma span_rest_length p s :
  (String.length (snd (span p s)) <= String.length s)%nat.
Proof.
  induction s as [|a s IH]; simpl; [lia|].
  destruct (p a); simpl; [|lia]. destruct (span p s). simpl in *. lia.
Qed.

Lemma unmatched_classes c :
  unmatched c = true ->
  is_digit c = false /\ is_ident_start c = false /\ is_word c = false
  /\ is_quote c = false /\ is_op c = false /\ is_punct c = false
  /\ is_skip c = false.
Proof.
  unfold unmatched. rewrite negb_true_iff, !orb_false_iff.
  intros ((((Hw & Hq) & Ho) & Hp) & Hs).
  pose proof Hw as Hw'. unfold is_word in Hw'.
  rewrite !orb_false_iff in Hw'. tauto.
Qed.

Lemma tok_regex_unmatched c r :
  unmatched c = true ->
  tok_regex (String c r) = Some ("MISMATCH", single c, r).
Proof.
  intros H. apply unmatched_classes in H as (Hd & Hi & _ & Hq & Ho & Hp & Hs).
  unfold is_punct in Hp. rewrite !orb_false_iff in Hp.
  destruct Hp as ((((H1 & H2) & H3) & H4) & H5).
  unfold tok_regex. rewrite Hd, Hi, Hq, Ho, H1, H2, H3, H4, H5, Hs.
  reflexivity.
Qed.

Lemma token_of_match_ident w :
  exists t, token_of_match "IDENT" w = Ok (Some t).
Proof.
  unfold token_of_match. cbn [String.eqb Ascii.eqb Bool.eqb andb].
  destruct (is_keyword w); eauto.
Qed.

(** The lexer fails on a text in which a character that no pattern
    accepts comes before any double quote. *)
Lemma tokenize_unmatched p c r :
  all_chars not_quote p = true -> unmatched c = true ->
  exists e, tokenize (p ++ String c r) = Err e.
Proof.
  intros Hp Hc. remember (String.length p) as n eqn:Hn.
  revert p Hp Hn. induction n as [n IH] using lt_wf_ind. intros p Hp Hn.
  destruct (unmatched_classes c Hc) as (Hd & Hi & Hw & Hq & Ho & Hpu & Hs).
  rewrite tokenize_step. destruct p as [|a p].
  { rewrite append_nil_l, (tok_regex_unmatched c r Hc). cbn. eauto. }
  simpl in Hp. apply andb_prop in Hp as [Ha Hp].
  unfold not_quote in Ha. apply negb_true_iff in Ha.
  simpl in Hn.
  assert (forall p', all_chars not_quote p' = true ->
                     (String.length p' <= String.length p)%nat ->
                     exists e, tokenize (p' ++ String c r) = Err e) as IH'.
  { intros p' Hp' Hl. apply (IH (String.length p')); [lia | exact Hp' | reflexivity]. }
  rewrite append_cons. unfold tok_regex.
  destruct (is_digit a) eqn:Da.
  { rewrite <- append_cons, (span_before is_digit (String a p) c r Hd).
    simpl. rewrite Da.
    destruct (IH' (snd (span is_digit p))) as [e He].
    - now apply span_rest_all.
    - apply span_rest_length.
    - destruct (span is_digit p) as [w p']. cbn in *.
      destruct (int (String a w)); [rewrite He|]; eauto. }
  destruct (is_ident_start a) eqn:Ia.
  { rewrite (span_before is_word p c r Hw).
    destruct (IH' (snd (span is_word p))) as [e He].
    - now apply span_rest_all.
    - apply span_rest_length.
    - destruct (token_of_match_ident (String a (fst (span is_word p))))
        as [t Ht].
      rewrite Ht, He. eauto. }
  rewrite Ha.
  destruct (is_op a) eqn:Oa.
  { rewrite <- append_cons, (span_before is_op (String a p) c r Ho).
    simpl. rewrite Oa.
    destruct (IH' (snd (span is_op p))) as [e He].
    - now apply span_rest_all.
    - apply span_rest_length.
    - destruct (span is_op p) as [w p']. cbn in *. rewrite He. eauto. }
  destruct (IH' p Hp (le_n _)) as [e He].
  repeat match goal with
         | |- context [if ?b then _ else _] => destruct b
         end; cbn; try rewrite He; eauto.
Qed.

End Unmatched.

(* ===================================================================== *)
(** ** Decimal numerals *)
(* ===================================================================== *)

Section Numerals.

Lemma string_of_uint_digits d :
  all_chars is_digit (NilEmpty.string_of_uint d) = true.
Proof. induction d; simpl; auto. Qed.

Lemma int_acc_of_uint_acc d acc :
  int_acc (Zpos acc) (NilEmpty.string_of_uint d)
  = Zpos (Pos.of_uint_acc d acc).
Proof.
  revert acc. induction d; intros acc; cbn [NilEmpty.string_of_uint int_acc Pos.of_uint_acc];
    [reflexivity | rewrite <- IHd; f_equal; vm_compute code; lia ..].
Qed.

Lemma int_of_uint d :
  int_acc 0 (NilEmpty.string_of_uint d) = Z.of_N (Pos.of_uint d).
Proof.
  induction d; cbn [NilEmpty.string_of_uint int_acc Pos.of_uint];
    [reflexivity | exact IHd | apply (int_acc_of_uint_acc d) ..].
Qed.

Lemma nilzero_string_of_uint d :
  NilZero.string_of_uint d
  = match d with
    | Decimal.Nil => "0"
    | _ => NilEmpty.string_of_uint d
    end.
Proof. destruct d; reflexivity. Qed.

Lemma str_int_digits n :
  0 <= n -> str_int n <> EmptyString /\ all_chars is_digit (str_int n) = true.
Proof.
  intros Hn. assert (str_int n = NilZero.string_of_uint (N.to_uint (Z.to_N n))) as ->.
  { destruct n; [reflexivity | reflexivity | lia]. }
  rewrite nilzero_string_of_uint.
  destruct (N.to_uint (Z.to_N n)) eqn:E; split; try discriminate;
    try reflexivity; rewrite <- E at 1; try apply string_of_uint_digits.
Qed.

Lemma int_str_int n : 0 <= n -> int_acc 0 (str_int n) = n.
Proof.
  intros Hn. assert (str_int n = NilZero.string_of_uint (N.to_uint (Z.to_N n))) as ->.
  { destruct n; [reflexivity | reflexivity | lia]. }
  rewrite nilzero_string_of_uint.
  pose proof (DecimalN.Unsigned.of_to (Z.to_N n)) as Hr.
  unfold N.of_uint in Hr.
  destruct (N.to_uint (Z.to_N n)) eqn:E.
  - simpl in Hr. change (int_acc 0 "0") with 0. lia.
  - rewrite int_of_uint, Hr. lia.
  - rewrite int_of_uint, Hr. lia.
  - rewrite int_of_uint, Hr. lia.
  - rewrite int_of_uint, Hr. lia.
  - rewrite int_of_uint, Hr. lia.
  - rewrite int_of_uint, Hr. lia.
  - rewrite int_of_uint, Hr. lia.
  - rewrite int_of_uint, Hr. lia.
  - rewrite int_of_uint, Hr. lia.
  - rewrite int_of_uint, Hr. lia.
Qed.

Lemma int_within s :
  Z.of_nat (String.length s) <= max_str_digits -> int s = Ok (int_acc 0 s).
Proof.
  intros H. unfold int.
  destruct (max_str_digits <? Z.of_nat (String.length s)) eqn:E;
    [apply Z.ltb_lt in E; lia | reflexivity].
Qed.

Lemma int_beyond s :
  max_str_digits < Z.of_nat (String.length s) -> int s = Err ValueError.
Proof.
  intros H. unfold int. apply Z.ltb_lt in H. now rewrite H.
Qed.

Lemma int_returns s n : int s = Ok n -> n = int_acc 0 s.
Proof.
  unfold int. destruct (max_str_digits <? Z.of_nat (String.length s));
    intros H; inversion H; reflexivity.
Qed.

Lemma token_of_match_number v :
  Lexer.token_of_match "NUMBER" v
  = match int v with
    | Ok n => Ok (Some ("NUMBER", TInt n))
    | Err e => Err e
    end.
Proof. reflexivity. Qed.

Lemma digit_value c : is_digit c = true -> 0 <= Z.of_nat (code c) - 48.
Proof.
  unfold is_digit, between. intros H. apply andb_prop in H as [H _].
  apply Nat.leb_le in H. lia.
Qed.

Lemma int_acc_nonneg w acc :
  all_chars is_digit w = true -> 0 <= acc -> 0 <= int_acc acc w.
Proof.
  revert acc. induction w as [|c w IH]; intros acc Hw Hacc; simpl; [exact Hacc|].
  simpl in Hw. apply andb_prop in Hw as [Hc Hw]. apply IH; [exact Hw|].
  pose proof (digit_value c Hc). lia.
Qed.

End Numerals.

(* ===================================================================== *)
(** ** Re-tokenizing the text of the tokens *)
(* ===================================================================== *)

Section RoundTrip.
Import Lexer.

Lemma is_quote_eq c : is_quote c = true -> c = quote.
Proof.
  destruct c as [[] [] [] [] [] [] [] []]; vm_compute; intros H;
    (discriminate H || reflexivity).
Qed.

Lemma is_keyword_cases w :
  is_keyword w = true ->
  w = "int" \/ w = "string" \/ w = "if" \/ w = "else" \/ w = "for"
  \/ w = "print" \/ w = "range".
Proof.
  unfold is_keyword, keywords. cbn [existsb]. rewrite !orb_true_iff.
  rewrite !String.eqb_eq. intuition congruence.
Qed.

Lemma tok_regex_lexed s k v rest t :
  tok_regex s = Some (k, v, rest) -> token_of_match k v = Ok (Some t) ->
  lexed t.
Proof.
  destruct s as [|c s]; [discriminate|]. unfold tok_regex.
  destruct (is_digit c) eqn:Hd.
  { destruct (span is_digit (String c s)) as [w r] eqn:E.
    intros H; inversion H; subst.
    rewrite token_of_match_number.
    destruct (int v) as [n|err] eqn:En; [|discriminate].
    intros Ht; inversion Ht; subst. apply lexed_number.
    apply int_returns in En. subst n.
    apply int_acc_nonneg; [now apply span_all in E | lia]. }
  destruct (is_ident_start c) eqn:Hi.
  { destruct (span is_word s) as [w r] eqn:E.
    intros H; inversion H; subst. unfold token_of_match.
    cbn [String.eqb Ascii.eqb Bool.eqb andb].
    destruct (is_keyword (String c w)) eqn:Ek; intros Ht; inversion Ht; subst.
    - now apply (lexed_keyword (String c w)).
    - apply lexed_ident; auto. now apply span_all in E. }
  destruct (if is_quote c then closing_quote s else None)
    as [[body r]|] eqn:Eq.
  { destruct (is_quote c) eqn:Hq; [|discriminate].
    intros H; inversion H; subst.
    change (token_of_match "STRING" (String c (body ++ single quote)))
      with (@Ok (option token)
              (Some ("STRING",
                     TStr (strip_ends (String c (body ++ single quote)))))).
    unfold strip_ends, single. rewrite drop_last_append.
    intros Ht; inversion Ht; subst. apply lexed_string.
    now apply closing_quote_body in Eq. }
  destruct (is_op c) eqn:Ho.
  { destruct (span is_op (String c s)) as [w r] eqn:E.
    intros H; inversion H; subst.
    change (token_of_match "OP" v)
      with (@Ok (option token) (Some ("OP", TStr v))).
    intros Ht; inversion Ht; subst. apply lexed_op.
    - simpl in E. rewrite Ho in E. destruct (span is_op s).
      inversion E. discriminate.
    - now apply span_all in E. }
  repeat match goal with
         | |- context [if ?b then _ else _] => destruct b eqn:?
         end;
    intros H; inversion H; subst; intros Ht; vm_compute in Ht;
    try discriminate Ht; inversion Ht; subst;
    match goal with
    | Hc : (code ?c =? ?n)%nat = true |- _ =>
        apply Nat.eqb_eq in Hc;
        assert (c = Ascii.ascii_of_nat n) as ->
            by (rewrite <- Hc; unfold code; now rewrite ascii_nat_embedding)
    end;
    apply lexed_punct; simpl; auto 10.
Qed.

Lemma tokenize_lexed s toks : tokenize s = Ok toks -> Forall lexed toks.
Proof.
  remember (String.length s) as n eqn:Hn. revert s toks Hn.
  induction n as [n IH] using lt_wf_ind. intros s toks Hn.
  rewrite tokenize_step.
  destruct (tok_regex s) as [[[k v] rest]|] eqn:E.
  - pose proof (tok_regex_shorter _ _ _ _ E) as Hl.
    destruct (token_of_match k v) as [o|err] eqn:Et; [|discriminate].
    destruct (tokenize rest) as [ts|err] eqn:Er; [|discriminate].
    assert (Forall lexed ts) as Hts.
    { apply (IH (String.length rest)) with (s := rest); [lia | reflexivity | exact Er]. }
    intros H; inversion H; subst. destruct o as [t|]; [|exact Hts].
    apply List.Forall_cons; [|exact Hts]. now apply (tok_regex_lexed s k v rest).
  - intros H; inversion H. apply List.Forall_nil.
Qed.

Lemma separated_stops p r :
  p (Ascii.ascii_of_nat 32) = false -> separated r -> stops p r = true.
Proof.
  intros Hp [-> | [r' ->]]; simpl; [reflexivity | now rewrite Hp].
Qed.

(** The matched text of a token, followed by a separator, is matched whole
    again, by the same alternative. *)
Lemma tok_regex_again s k v rest t r :
  tok_regex s = Some (k, v, rest) -> token_of_match k v = Ok (Some t) ->
  separated r -> tok_regex (v ++ r) = Some (k, v, r).
Proof.
  destruct s as [|c s]; [discriminate|]. unfold tok_regex at 1.
  destruct (is_digit c) eqn:Hd.
  { destruct (span is_digit (String c s)) as [w r0] eqn:E.
    intros H; inversion H; subst. intros _ Hr.
    apply tok_regex_number.
    - simpl in E. rewrite Hd in E. destruct (span is_digit s).
      inversion E. discriminate.
    - now apply span_all in E.
    - now apply separated_stops. }
  destruct (is_ident_start c) eqn:Hi.
  { destruct (span is_word s) as [w r0] eqn:E.
    intros H; inversion H; subst. intros _ Hr.
    apply tok_regex_ident; [exact Hi | now apply span_all in E |].
    now apply separated_stops. }
  destruct (if is_quote c then closing_quote s else None)
    as [[body r0]|] eqn:Eq.
  { destruct (is_quote c) eqn:Hq; [|discriminate].
    intros H; inversion H; subst. intros _ Hr.
    apply is_quote_eq in Hq. subst c.
    rewrite append_cons. unfold single.
    rewrite append_assoc, append_cons, append_nil_l.
    apply tok_regex_string. now apply closing_quote_body in Eq. }
  destruct (is_op c) eqn:Ho.
  { destruct (span is_op (String c s)) as [w r0] eqn:E.
    intros H; inversion H; subst. intros _ Hr.
    apply tok_regex_op.
    - simpl in E. rewrite Ho in E. destruct (span is_op s).
      inversion E. discriminate.
    - now apply span_all in E.
    - now apply separated_stops. }
  repeat match goal with
         | |- context [if ?b then _ else _] => destruct b eqn:?
         end;
    intros H; inversion H; subst; intros Ht Hr; vm_compute in Ht;
    try discriminate Ht;
    match goal with
    | Hc : (code ?c =? ?n)%nat = true |- _ =>
        apply Nat.eqb_eq in Hc;
        assert (c = Ascii.ascii_of_nat n) as ->
            by (rewrite <- Hc; unfold code; now rewrite ascii_nat_embedding)
    end;
    reflexivity.
Qed.

Lemma texts_from_fuel f1 f2 s :
  (String.length s <= f1)%nat -> (String.length s <= f2)%nat ->
  texts_from f1 s = texts_from f2 s.
Proof.
  revert f2 s. induction f1 as [|f1 IH]; intros f2 s H1 H2.
  - destruct s; [|simpl in H1; lia]. destruct f2; reflexivity.
  - destruct f2 as [|f2].
    { destruct s; [|simpl in H2; lia]. reflexivity. }
    simpl. destruct (tok_regex s) as [[[k v] rest]|] eqn:E; [|reflexivity].
    apply tok_regex_shorter in E.
    rewrite (IH f2 rest) by lia. reflexivity.
Qed.

(** [literal_texts] unfolded by one match of the regular expression. *)
Lemma literal_texts_step s :
  literal_texts s =
  match tok_regex s with
  | None => []
  | Some (k, v, rest) =>
      match token_of_match k v with
      | Ok (Some _) => v :: literal_texts rest
      | Ok None => literal_texts rest
      | Err _ => []
      end
  end.
Proof.
  unfold literal_texts. destruct s as [|c s]; [reflexivity|].
  change (String.length (String c s)) with (S (String.length s)).
  cbn [texts_from].
  destruct (tok_regex (String c s)) as [[[k v] rest]|] eqn:E; [|reflexivity].
  apply tok_regex_shorter in E. simpl in E.
  rewrite (texts_from_fuel (String.length s) (String.length rest) rest)
    by lia.
  reflexivity.
Qed.

Lemma join_texts_cons v v' l :
  join_texts (v :: v' :: l)
  = v ++ String (Ascii.ascii_of_nat 32) (join_texts (v' :: l)).
Proof. reflexivity. Qed.

(** Every literal text is the text of its token, and the texts joined by
    spaces are lexed into the tokens again. *)
Lemma tokenize_texts s toks :
  tokenize s = Ok toks ->
  Forall2 (fun v t => tokenize v = Ok [t]) (literal_texts s) toks
  /\ tokenize (join_texts (literal_texts s)) = Ok toks.
Proof.
  remember (String.length s) as n eqn:Hn. revert s toks Hn.
  induction n as [n IH] using lt_wf_ind. intros s toks Hn.
  rewrite tokenize_step, literal_texts_step.
  destruct (tok_regex s) as [[[k v] rest]|] eqn:E.
  2:{ intros H; inversion H; subst. split; [constructor | reflexivity]. }
  pose proof (tok_regex_shorter _ _ _ _ E) as Hl.
  destruct (token_of_match k v) as [o|err] eqn:Et; [|discriminate].
  destruct (tokenize rest) as [ts|err] eqn:Er; [|discriminate].
  destruct (IH (String.length rest) ltac:(lia) rest ts eq_refl Er)
    as [Hall Hjoin].
  intros H; inversion H; subst. destruct o as [t|]; [|auto].
  assert (tokenize v = Ok [t]) as Hv.
  { rewrite <- (append_nil_r v), tokenize_step.
    rewrite (tok_regex_again s k v rest t EmptyString E Et); [|now left].
    rewrite Et. reflexivity. }
  split; [constructor; assumption|].
  destruct (literal_texts rest) as [|v' l] eqn:El.
  - inversion Hall; subst. exact Hv.
  - rewrite join_texts_cons, tokenize_step.
    rewrite (tok_regex_again s k v rest t _ E Et); [|right; eauto].
    rewrite Et, tokenize_skip by reflexivity. rewrite Hjoin. reflexivity.
Qed.

End RoundTrip.

(** C6. For every source text that tokenizes successfully, the literal
    texts of the resulting tokens, which are the texts the lexer matched
    (a string literal with its quotes, a number with the digits as they were
    written), joined with a space between them and tokenized again, yield
    the same tokens, and so the same sequence of kinds. There is one literal
    text for each token, and each of them alone is lexed into its token. *)
Theorem retokenize_token_texts (source_code : string) (toks : list token) :
  Lexer.tokenize source_code = Ok toks ->
  Forall2 (fun v t => Lexer.tokenize v = Ok [t])
    (literal_texts source_code) toks
  /\ Lexer.tokenize (join_texts (literal_texts source_code)) = Ok toks
  /\ exists toks',
      Lexer.tokenize (join_texts (literal_texts source_code)) = Ok toks'
      /\ map kind toks' = map kind toks.
Proof.
  intros H. destruct (tokenize_texts source_code toks H) as [Hall Hjoin].
  split; [exact Hall|]. split; [exact Hjoin | exists toks; auto].
Qed.

Lemma retokenize_token_texts_witness :
  literal_texts ("string s=" ++ quoted "a b" ++ "+007 print")
  = ["string"; "s"; "="; quoted "a b"; "+"; "007"; "print"]
  /\ Lexer.tokenize (join_texts ["string"; "s"; "="; quoted "a b"; "+"; "007";
                                 "print"])
     = Ok [("STRING", TStr "string"); ("IDENT", TStr "s"); ("OP", TStr "=");
           ("STRING", TStr "a b"); ("OP", TStr "+"); ("NUMBER", TInt 7);
           ("PRINT", TStr "print")].
Proof.
  split; [vm_compute; reflexivity|].
  apply (retokenize_token_texts ("string s=" ++ quoted "a b" ++ "+007 print")).
  vm_compute. reflexivity.
Defined.

(* ===================================================================== *)
(** ** More about the lexer *)
(* ===================================================================== *)

Section LexerMore.
Import Lexer.

Lemma lexed_shape t : lexed t -> token_shape t.
Proof.
  intros [n Hn | c w Hc Hw Hk | w Hk | body Hb | w Hne Hw | k c Hin];
    unfold token_shape; cbn [fst snd].
  - repeat split; simpl; auto.
  - repeat split; simpl; auto; discriminate.
  - apply is_keyword_cases in Hk.
    destruct Hk as [-> | [-> | [-> | [-> | [-> | [-> | ->]]]]]];
      (split; [vm_compute; auto 20 |]);
      (split; [discriminate |]);
      (split; [intros E; (reflexivity || discriminate E) | discriminate]).
  - repeat split; simpl; auto; try discriminate.
  - repeat split; simpl; auto 10; discriminate.
  - simpl in Hin.
    destruct Hin as [H | [H | [H | [H | [H | []]]]]]; inversion H; subst;
      (repeat split; simpl; auto 20; discriminate).
Qed.

(** Every token of a successful tokenization has a kind of the fixed list;
    the NUMBER tokens, and they alone, carry an integer, which is not
    negative; only a STRING token can have an empty value, and the value of
    a STRING token holds no double quote. *)
Theorem tokens_have_shape (source_code : string) (toks : list token) :
  tokenize source_code = Ok toks -> Forall token_shape toks.
Proof.
  intros H. apply tokenize_lexed in H.
  eapply Forall_impl; [exact H|]. intros t Ht. now apply lexed_shape.
Qed.

Lemma tokens_have_shape_witness :
  Forall token_shape
    [("PRINT", TStr "print"); ("NUMBER", TInt 7); ("OP", TStr "<=");
     ("STRING", TStr "")].
Proof.
  apply (tokens_have_shape ("print 007<=" ++ quoted "")).
  vm_compute. reflexivity.
Defined.

Lemma closing_quote_append s body r :
  closing_quote s = Some (body, r) -> s = body ++ String quote r.
Proof.
  revert body r. induction s as [|a s IH]; intros body r Eq; [discriminate|].
  simpl in Eq. destruct (is_quote a) eqn:Ha.
  - inversion Eq; subst. rewrite append_nil_l. now rewrite (is_quote_eq a Ha).
  - destruct (closing_quote s) as [[b r']|]; [|discriminate].
    inversion Eq; subst. rewrite append_cons. f_equal. now apply IH.
Qed.

(** A match is a prefix of the text it was found in. *)
Lemma tok_regex_split s k v rest :
  tok_regex s = Some (k, v, rest) -> s = v ++ rest.
Proof.
  destruct s as [|c s]; [discriminate|]. unfold tok_regex.
  destruct (is_digit c).
  { destruct (span is_digit (String c s)) as [w r] eqn:E.
    intros H; inversion H; subst. now apply span_append in E. }
  destruct (is_ident_start c).
  { destruct (span is_word s) as [w r] eqn:E.
    intros H; inversion H; subst. apply span_append in E.
    rewrite append_cons. now f_equal. }
  destruct (if is_quote c then closing_quote s else None)
    as [[body r]|] eqn:Eq.
  { destruct (is_quote c) eqn:Hq; [|discriminate].
    apply closing_quote_append in Eq.
    intros H; inversion H; subst.
    rewrite append_cons, append_assoc. reflexivity. }
  destruct (is_op c).
  { destruct (span is_op (String c s)) as [w r] eqn:E.
    intros H; inversion H; subst. now apply span_append in E. }
  repeat match goal with
         | |- context [if ?b then _ else _] => destruct b
         end; intros H; inversion H; subst; reflexivity.
Qed.

Lemma int_raises s e :
  int s = Err e ->
  e = ValueError /\ max_str_digits < Z.of_nat (String.length s).
Proof.
  unfold int.
  destruct (max_str_digits <? Z.of_nat (String.length s)) eqn:E;
    intros H; inversion H. apply Z.ltb_lt in E. auto.
Qed.

Lemma token_of_match_error_mismatch s k v rest e :
  tok_regex s = Some (k, v, rest) -> token_of_match k v = Err e ->
  (exists c, s = String c rest
             /\ e = RuntimeError ("Unexpected character: " ++ single c)
             /\ plain c = false)
  \/ (e = ValueError /\ all_chars is_digit v = true
      /\ max_str_digits < Z.of_nat (String.length v)).
Proof.
  destruct s as [|c s]; [discriminate|]. unfold tok_regex.
  destruct (is_digit c) eqn:Hd.
  { destruct (span is_digit (String c s)) as [w r] eqn:E.
    intros H; inversion H; subst. rewrite token_of_match_number.
    destruct (int v) as [n|err] eqn:En; [discriminate|].
    intros Ht; inversion Ht; subst. right.
    apply int_raises in En as [-> Hl]. apply span_all in E. auto. }
  destruct (is_ident_start c) eqn:Hi.
  { destruct (span is_word s) as [w r].
    intros H; inversion H; subst. unfold token_of_match.
    cbn [String.eqb Ascii.eqb Bool.eqb andb].
    destruct (is_keyword (String c w)); discriminate. }
  destruct (if is_quote c then closing_quote s else None)
    as [[body r]|] eqn:Eq.
  { intros H; inversion H; subst. discriminate. }
  destruct (is_op c) eqn:Ho.
  { destruct (span is_op (String c s)) as [w r].
    intros H; inversion H; subst. discriminate. }
  repeat match goal with
         | |- context [if ?b then _ else _] => destruct b eqn:?
         end; intros H; inversion H; subst; try discriminate.
  intros Ht. inversion Ht; subst. left. exists c. repeat split.
  unfold plain, is_punct.
  repeat match goal with
         | E : _ = false |- _ => rewrite E; clear E
         end.
  reflexivity.
Qed.

(** The two ways the lexer fails: with the RuntimeError that names a
    character of the source text which no token pattern accepts at the
    start of a token (a double quote that is never closed counts as
    such), or with the ValueError of [int] on a run of more than
    [max_str_digits] digits of the source text. *)
Theorem tokenize_error_names_character (source_code : string) (e : error) :
  tokenize source_code = Err e ->
  exists before,
    (exists c after,
        source_code = before ++ String c after
        /\ e = RuntimeError ("Unexpected character: " ++ single c)
        /\ plain c = false)
    \/ (exists w after,
          source_code = before ++ w ++ after
          /\ e = ValueError
          /\ all_chars is_digit w = true
          /\ max_str_digits < Z.of_nat (String.length w)).
Proof.
  remember (String.length source_code) as n eqn:Hn. revert source_code Hn.
  induction n as [n IH] using lt_wf_ind. intros s Hn.
  rewrite tokenize_step.
  destruct (tok_regex s) as [[[k v] rest]|] eqn:E; [|discriminate].
  pose proof (tok_regex_shorter _ _ _ _ E) as Hl.
  pose proof (tok_regex_split _ _ _ _ E) as Hs.
  destruct (token_of_match k v) as [o|err] eqn:Et.
  - destruct (tokenize rest) as [ts|err] eqn:Er; [discriminate|].
    intros H; inversion H; subst err.
    destruct (IH (String.length rest) ltac:(lia) rest eq_refl Er)
      as (before & [(c & after & -> & He & Hc) | (w & after & -> & He & Hw)]).
    + exists (v ++ before). left. exists c, after.
      rewrite append_assoc. auto.
    + exists (v ++ before). right. exists w, after.
      rewrite append_assoc. auto.
  - intros H; inversion H; subst err. exists EmptyString.
    destruct (token_of_match_error_mismatch _ _ _ _ _ E Et)
      as [(c & -> & He & Hc) | (He & Hd & Hlong)].
    + left. exists c, rest. auto.
    + right. exists v, rest. rewrite append_nil_l. auto.
Qed.

Lemma tokenize_error_names_character_witness :
  exists before,
    (exists c after,
        "print 1 $ 2" = before ++ String c after
        /\ RuntimeError "Unexpected character: $"
           = RuntimeError ("Unexpected character: " ++ single c)
        /\ plain c = false)
    \/ (exists w after,
          "print 1 $ 2" = before ++ w ++ after
          /\ RuntimeError "Unexpected character: $" = ValueError
          /\ all_chars is_digit w = true
          /\ max_str_digits < Z.of_nat (String.length w)).
Proof.
  apply (tokenize_error_names_character "print 1 $ 2").
  vm_compute. reflexivity.
Defined.

Lemma closing_quote_none body :
  all_chars not_quote body = true -> closing_quote body = None.
Proof.
  induction body as [|c b IH]; [reflexivity|]. simpl.
  intros H. apply andb_prop in H as [Hc Hb]. unfold not_quote in Hc.
  apply negb_true_iff in Hc. now rewrite Hc, IH.
Qed.

(** A string literal that is never closed makes the lexer fail on its
    opening quote, whatever follows. *)
Theorem unterminated_string_raises (body : string) :
  all_chars not_quote body = true ->
  tokenize (String quote body)
  = Err (RuntimeError ("Unexpected character: " ++ single quote)).
Proof.
  intros Hb. rewrite tokenize_step. unfold tok_regex.
  change (is_digit quote) with false.
  change (is_ident_start quote) with false.
  change (is_quote quote) with true. cbv iota.
  rewrite (closing_quote_none body Hb). reflexivity.
Qed.

Lemma unterminated_string_raises_witness :
  tokenize (String quote "abc = 1")
  = Err (RuntimeError ("Unexpected character: " ++ single quote)).
Proof. apply unterminated_string_raises. reflexivity. Defined.

Lemma tokenize_digits w r :
  w <> EmptyString -> all_chars is_digit w = true -> stops is_digit r = true ->
  tokenize (w ++ r)
  = if Z.of_nat (String.length w) <=? max_str_digits
    then match tokenize r with
         | Ok ts => Ok (("NUMBER", TInt (int_acc 0 w)) :: ts)
         | Err e => Err e
         end
    else Err ValueError.
Proof.
  intros Hne Hw Hr.
  rewrite tokenize_step, (tok_regex_number w r Hne Hw Hr).
  rewrite token_of_match_number.
  destruct (Z.of_nat (String.length w) <=? max_str_digits) eqn:El.
  - apply Z.leb_le in El. rewrite (int_within w El).
    destruct (tokenize r); reflexivity.
  - apply Z.leb_gt in El. rewrite (int_beyond w El). reflexivity.
Qed.

(** A run of at most [max_str_digits] digits is one NUMBER token holding
    its decimal value, also when letters follow it at once: a leading digit
    always starts a number. On a longer run the lexer fails with the
    ValueError of [int], whatever follows. *)
Theorem digit_run_is_number (w r : string) :
  w <> EmptyString -> all_chars is_digit w = true -> stops is_digit r = true ->
  0 <= int_acc 0 w
  /\ tokenize (w ++ r)
     = if Z.of_nat (String.length w) <=? max_str_digits
       then match tokenize r with
            | Ok ts => Ok (("NUMBER", TInt (int_acc 0 w)) :: ts)
            | Err e => Err e
            end
       else Err ValueError.
Proof.
  intros Hne Hw Hr. split; [now apply int_acc_nonneg|].
  now apply tokenize_digits.
Qed.

Lemma digit_run_is_number_witness :
  tokenize ("12" ++ "ab")
  = Ok [("NUMBER", TInt 12); ("IDENT", TStr "ab")].
Proof.
  destruct (digit_run_is_number "12" "ab") as [_ E].
  - discriminate.
  - reflexivity.
  - reflexivity.
  - rewrite E. reflexivity.
Defined.

(** A word, a letter or underscore followed by word characters, up to the
    first character that is none, is one token: of the keyword's own kind
    when the whole word is a keyword, an IDENT otherwise. A keyword inside
    a longer word is not seen. *)
Theorem word_is_one_token (c : ascii) (w r : string) :
  is_ident_start c = true -> all_chars is_word w = true ->
  stops is_word r = true ->
  tokenize (String c w ++ r)
  = match tokenize r with
    | Ok ts => Ok (word_token (String c w) :: ts)
    | Err e => Err e
    end.
Proof.
  intros Hc Hw Hr.
  rewrite tokenize_step, (tok_regex_ident c w r Hc Hw Hr).
  unfold token_of_match, word_token.
  cbn [String.eqb Ascii.eqb Bool.eqb andb].
  destruct (is_keyword (String c w)); cbv iota;
    destruct (tokenize r); reflexivity.
Qed.

Lemma word_is_one_token_witness :
  tokenize ("printer" ++ " print")
  = Ok [("IDENT", TStr "printer"); ("PRINT", TStr "print")].
Proof.
  rewrite (word_is_one_token "p" "rinter" " print"); reflexivity.
Defined.

(** Reading back the decimal text of a natural number, when [str] returns
    it, gives the one NUMBER token with that number. *)
Theorem number_text_roundtrip (n : Z) :
  0 <= n -> str_returns n = true ->
  tokenize (str_int n) = Ok [("NUMBER", TInt n)].
Proof.
  intros Hn Hs. destruct (str_int_digits n Hn) as [Hne Hd].
  unfold str_returns in Hs. rewrite (Z.abs_eq n Hn) in Hs.
  rewrite <- (append_nil_r (str_int n)).
  rewrite (tokenize_digits (str_int n) EmptyString Hne Hd eq_refl).
  rewrite Hs, (int_str_int n Hn). reflexivity.
Qed.

Lemma number_text_roundtrip_witness :
  tokenize (str_int 2048) = Ok [("NUMBER", TInt 2048)].
Proof. apply number_text_roundtrip; [lia | reflexivity]. Defined.

(** Spaces, tabs and newlines in front of a text give no token and change
    nothing of what follows. *)
Theorem leading_whitespace_ignored (ws s : string) :
  all_chars is_skip ws = true -> tokenize (ws ++ s) = tokenize s.
Proof.
  induction ws as [|c ws IH]; [reflexivity|]. simpl.
  intros H. apply andb_prop in H as [Hc Hws].
  rewrite append_cons, tokenize_skip; auto.
Qed.

Lemma leading_whitespace_ignored_witness :
  tokenize ("  " ++ "x = 5") = tokenize "x = 5".
Proof. apply leading_whitespace_ignored. reflexivity. Defined.

Lemma plain_classes c :
  plain c = true -> is_quote c = false.
Proof.
  destruct c as [[] [] [] [] [] [] [] []]; vm_compute; intros H;
    (discriminate H || reflexivity).
Qed.

Lemma digit_runs_mono run run' s :
  run' <= run -> digit_runs_within run s = true ->
  digit_runs_within run' s = true.
Proof.
  revert run run'. induction s as [|c s IH]; intros run run' Hle;
    cbn [digit_runs_within]; [auto|].
  destruct (is_digit c); [|auto].
  intros H. apply andb_prop in H as [H1 H2]. apply Z.leb_le in H1.
  apply andb_true_intro. split; [apply Z.leb_le; lia|].
  apply (IH (run + 1)); [lia | exact H2].
Qed.

Lemma digit_runs_tail run c s :
  0 <= run -> digit_runs_within run (String c s) = true ->
  digit_runs_within 0 s = true.
Proof.
  intros Hr. cbn [digit_runs_within]. destruct (is_digit c); [|auto].
  intros H. apply andb_prop in H as [_ H].
  apply (digit_runs_mono (run + 1)); [lia | exact H].
Qed.

Lemma digit_runs_rest p run s :
  0 <= run -> digit_runs_within run s = true ->
  digit_runs_within 0 (snd (span p s)) = true.
Proof.
  revert run. induction s as [|c s IH]; intros run Hr H; [reflexivity|].
  cbn [span]. destruct (p c).
  - pose proof (IH 0 ltac:(lia) (digit_runs_tail run c s Hr H)) as IH'.
    destruct (span p s) as [w r]. exact IH'.
  - cbn [snd]. apply (digit_runs_mono run); [lia | exact H].
Qed.

Lemma digit_runs_span run s :
  run <= max_str_digits -> digit_runs_within run s = true ->
  run + Z.of_nat (String.length (fst (span is_digit s))) <= max_str_digits.
Proof.
  revert run. induction s as [|c s IH]; intros run Hr H;
    [cbn [span fst String.length]; lia|].
  cbn [span digit_runs_within] in *. destruct (is_digit c).
  - apply andb_prop in H as [H1 H2]. apply Z.leb_le in H1.
    specialize (IH (run + 1) H1 H2).
    destruct (span is_digit s) as [w r]. cbn [fst String.length] in *. lia.
  - cbn [fst String.length]. lia.
Qed.

Lemma tokenize_plain s :
  all_chars plain s = true -> short_numbers s = true ->
  exists toks, tokenize s = Ok toks.
Proof.
  unfold short_numbers.
  remember (String.length s) as n eqn:Hn. revert s Hn.
  induction n as [n IH] using lt_wf_ind. intros s Hn Hs Hr.
  rewrite tokenize_step. destruct s as [|a s]; [simpl; eauto|].
  simpl in Hs. apply andb_prop in Hs as [Ha Hs]. simpl in Hn.
  assert (forall s', all_chars plain s' = true ->
                     digit_runs_within 0 s' = true ->
                     (String.length s' <= String.length s)%nat ->
                     exists toks, tokenize s' = Ok toks) as IH'.
  { intros s' Hs' Hr' Hl.
    apply (IH (String.length s')); [lia | reflexivity | exact Hs' | exact Hr']. }
  pose proof (plain_classes a Ha) as Hq.
  pose proof (digit_runs_tail 0 a s ltac:(lia) Hr) as Hr'.
  unfold tok_regex.
  destruct (is_digit a) eqn:Da.
  { pose proof (digit_runs_span 0 (String a s) ltac:(unfold max_str_digits; lia) Hr)
      as Hlen.
    cbn [span] in *. rewrite Da in *.
    destruct (IH' (snd (span is_digit s))) as [ts Hts].
    - now apply span_rest_all.
    - now apply (digit_runs_rest is_digit 0).
    - apply span_rest_length.
    - destruct (span is_digit s) as [w s']. cbn [fst snd] in *.
      cbv beta iota zeta.
      rewrite token_of_match_number, (int_within (String a w)) by lia.
      rewrite Hts. eauto. }
  destruct (is_ident_start a) eqn:Ia.
  { destruct (IH' (snd (span is_word s))) as [ts Hts].
    - now apply span_rest_all.
    - now apply (digit_runs_rest is_word 0).
    - apply span_rest_length.
    - destruct (span is_word s) as [w s'] eqn:E. cbn [snd] in Hts.
      destruct (token_of_match_ident (String a w)) as [t Ht].
      rewrite Ht, Hts. eauto. }
  rewrite Hq.
  destruct (is_op a) eqn:Oa.
  { cbn [span]. rewrite Oa.
    destruct (IH' (snd (span is_op s))) as [ts Hts].
    - now apply span_rest_all.
    - now apply (digit_runs_rest is_op 0).
    - apply span_rest_length.
    - destruct (span is_op s) as [w s']. cbn [snd] in Hts.
      cbv beta iota zeta.
      change (token_of_match "OP" (String a w))
        with (@Ok (option token) (Some ("OP", TStr (String a w)))).
      cbv iota. rewrite Hts. eauto. }
  destruct (IH' s Hs Hr' (le_n _)) as [ts Hts].
  unfold plain, is_punct in Ha. rewrite Da, Ia, Oa in Ha. cbn [orb] in Ha.
  repeat match goal with
         | |- context [if ?b then _ else _] => destruct b eqn:?
         end; cbn; try rewrite Hts; eauto.
  repeat match goal with
         | E : _ = false |- _ => rewrite E in Ha; clear E
         end.
  discriminate Ha.
Qed.

(** A text made of ASCII letters, digits, underscores, the operator
    characters, colons, parentheses, braces and whitespace, in which no run
    of digits is longer than [max_str_digits], always tokenizes. *)
Theorem plain_text_tokenizes (source_code : string) :
  all_chars plain source_code = true -> short_numbers source_code = true ->
  exists toks, tokenize source_code = Ok toks /\ Forall token_shape toks.
Proof.
  intros H Hr. destruct (tokenize_plain source_code H Hr) as [toks E].
  exists toks. split; [exact E|].
  apply tokenize_lexed in E.
  eapply Forall_impl; [exact E|]. intros t Ht. now apply lexed_shape.
Qed.

Lemma plain_text_tokenizes_witness :
  exists toks, tokenize "if x<=3: print(y_1) }" = Ok toks
               /\ Forall token_shape toks.
Proof. apply plain_text_tokenizes; reflexivity. Defined.

End LexerMore.

(* ===================================================================== *)
(** ** A character the lexer rejects, anywhere in the text *)
(* ===================================================================== *)

Section Prefix.
Import Lexer.

Lemma span_app p s after :
  (snd (span p s) = EmptyString -> stops p after = true) ->
  span p (s ++ after) = (fst (span p s), snd (span p s) ++ after).
Proof.
  induction s as [|a s IH]; intros H.
  - rewrite append_nil_l. specialize (H eq_refl).
    destruct after as [|c r]; [reflexivity|]. cbn [stops] in H.
    apply negb_true_iff in H. cbn [span]. now rewrite H.
  - rewrite append_cons. cbn [span] in *. destruct (p a); [|reflexivity].
    destruct (span p s) as [w r]. cbn [fst snd] in *. now rewrite IH.
Qed.

Lemma span_rest_nil p s :
  snd (span p s) = EmptyString -> all_chars p s = true.
Proof.
  induction s as [|a s IH]; [reflexivity|]. cbn [span all_chars].
  destruct (p a); [|discriminate].
  destruct (span p s) as [w r]. cbn [snd] in *. intros ->. now rewrite IH.
Qed.

Lemma closing_quote_app s body r after :
  closing_quote s = Some (body, r) ->
  closing_quote (s ++ after) = Some (body, r ++ after).
Proof.
  revert body. induction s as [|a s IH]; intros body; [discriminate|].
  rewrite append_cons. cbn [closing_quote]. destruct (is_quote a).
  - intros H; inversion H; subst. reflexivity.
  - destruct (closing_quote s) as [[b r']|]; [|discriminate].
    intros H; inversion H; subst. now rewrite (IH b eq_refl).
Qed.

Lemma ends_in_cons p a s :
  s <> EmptyString -> ends_in p (String a s) = ends_in p s.
Proof. destruct s; [congruence | reflexivity]. Qed.

Lemma ends_in_all p s :
  s <> EmptyString -> all_chars p s = true -> ends_in p s = true.
Proof.
  induction s as [|a s IH]; [congruence|]. intros _ H.
  cbn [all_chars] in H. apply andb_prop in H as [Ha Hs].
  destruct s as [|b s]; [exact Ha|].
  rewrite ends_in_cons by discriminate. apply IH; [discriminate | exact Hs].
Qed.

Lemma ends_in_app p v rest :
  ends_in p rest = true -> ends_in p (v ++ rest) = true.
Proof.
  intros H. induction v as [|a v IH]; [now rewrite append_nil_l|].
  rewrite append_cons, ends_in_cons; [exact IH|].
  intros E. rewrite E in IH. discriminate.
Qed.

Lemma ends_in_impl (p q : ascii -> bool) s :
  (forall c, p c = true -> q c = true) ->
  ends_in p s = true -> ends_in q s = true.
Proof.
  intros Hpq. induction s as [|a s IH]; [discriminate|].
  destruct s as [|b s]; [apply Hpq | exact IH].
Qed.

Lemma stops_impl (p q : ascii -> bool) r :
  (forall c, p c = true -> q c = true) ->
  stops q r = true -> stops p r = true.
Proof.
  intros Hpq. destruct r as [|c r]; [reflexivity|]. cbn [stops].
  rewrite !negb_true_iff. intros Hq.
  destruct (p c) eqn:Hp; [|reflexivity]. apply Hpq in Hp. congruence.
Qed.

Lemma apart_word s after :
  apart s after = true -> ends_in is_word s = true ->
  stops is_word after = true.
Proof.
  unfold apart. intros H Hw. apply andb_prop in H as [H _].
  rewrite Hw in H. exact H.
Qed.

Lemma apart_op s after :
  apart s after = true -> ends_in is_op s = true -> stops is_op after = true.
Proof.
  unfold apart. intros H Hw. apply andb_prop in H as [_ H].
  rewrite Hw in H. exact H.
Qed.

Lemma apart_suffix v rest after :
  apart (v ++ rest) after = true -> apart rest after = true.
Proof.
  intros H. unfold apart. apply andb_true_intro. split.
  - destruct (ends_in is_word rest) eqn:E; [|reflexivity].
    apply (apart_word _ _ H). now apply ends_in_app.
  - destruct (ends_in is_op rest) eqn:E; [|reflexivity].
    apply (apart_op _ _ H). now apply ends_in_app.
Qed.

(** A match that gives a token, or is skipped, is found again when text
    that does not continue it is put behind the text. *)
Lemma tok_regex_app s k v rest o after :
  tok_regex s = Some (k, v, rest) -> token_of_match k v = Ok o ->
  apart s after = true ->
  tok_regex (s ++ after) = Some (k, v, rest ++ after).
Proof.
  destruct s as [|c s]; [discriminate|].
  intros H Ht Hap. rewrite append_cons. revert H. unfold tok_regex.
  destruct (is_digit c) eqn:Hd.
  { rewrite <- append_cons.
    destruct (span is_digit (String c s)) as [w r] eqn:E.
    intros H; inversion H; subst.
    rewrite span_app, E; [reflexivity|]. rewrite E. cbn [snd]. intros ->.
    apply (stops_impl is_digit is_word); [exact digit_is_word|].
    apply (apart_word _ _ Hap).
    apply (ends_in_impl is_digit is_word); [exact digit_is_word|].
    apply ends_in_all; [discriminate|].
    apply span_rest_nil. now rewrite E. }
  destruct (is_ident_start c) eqn:Hi.
  { destruct (span is_word s) as [w r] eqn:E.
    intros H; inversion H; subst.
    rewrite span_app, E; [reflexivity|]. rewrite E. cbn [snd]. intros ->.
    apply (apart_word _ _ Hap).
    apply ends_in_all; [discriminate|]. cbn [all_chars].
    destruct (ident_start_classes c Hi) as [_ ->].
    apply span_rest_nil. now rewrite E. }
  destruct (is_quote c) eqn:Hq.
  { destruct (closing_quote s) as [[body r]|] eqn:Eq.
    - intros H; inversion H; subst.
      now rewrite (closing_quote_app _ _ _ after Eq).
    - apply is_quote_eq in Hq. subst c.
      change (is_op quote) with false.
      change (is_skip quote) with false.
      change (code quote) with 34%nat. cbn [Nat.eqb].
      intros H; inversion H; subst. discriminate Ht. }
  destruct (is_op c) eqn:Ho.
  { rewrite <- append_cons.
    destruct (span is_op (String c s)) as [w r] eqn:E.
    intros H; inversion H; subst.
    rewrite span_app, E; [reflexivity|]. rewrite E. cbn [snd]. intros ->.
    apply (apart_op _ _ Hap).
    apply ends_in_all; [discriminate|].
    apply span_rest_nil. now rewrite E. }
  repeat match goal with
         | |- context [if ?b then _ else _] => destruct b
         end; intros H; inversion H; subst; reflexivity.
Qed.

Lemma tok_regex_none s : tok_regex s = None -> s = EmptyString.
Proof.
  destruct s as [|c s]; [reflexivity|]. unfold tok_regex.
  destruct (is_digit c);
    [destruct (span is_digit (String c s)); discriminate|].
  destruct (is_ident_start c); [destruct (span is_word s); discriminate|].
  destruct (if is_quote c then closing_quote s else None) as [[b r]|];
    [discriminate|].
  destruct (is_op c); [destruct (span is_op (String c s)); discriminate|].
  repeat match goal with
         | |- context [if ?b then _ else _] => destruct b
         end; discriminate.
Qed.

(** The tokens of a text that is lexed by itself come first, unchanged,
    when text that does not continue its last token is put behind it. *)
Lemma tokenize_app before after toks :
  tokenize before = Ok toks -> apart before after = true ->
  tokenize (before ++ after)
  = match tokenize after with
    | Ok ts => Ok (toks ++ ts)%list
    | Err e => Err e
    end.
Proof.
  remember (String.length before) as n eqn:Hn. revert before toks Hn.
  induction n as [n IH] using lt_wf_ind. intros before toks Hn.
  rewrite (tokenize_step before).
  destruct (tok_regex before) as [[[k v] rest]|] eqn:E.
  2:{ apply tok_regex_none in E. subst before.
      intros H _; inversion H; subst.
      rewrite append_nil_l. destruct (tokenize after); reflexivity. }
  pose proof (tok_regex_shorter _ _ _ _ E) as Hl.
  pose proof (tok_regex_split _ _ _ _ E) as Hs.
  destruct (token_of_match k v) as [o|err] eqn:Et; [|discriminate].
  destruct (tokenize rest) as [ts|err] eqn:Er; [|discriminate].
  intros H Hap; inversion H; subst toks.
  rewrite tokenize_step, (tok_regex_app before k v rest o after E Et Hap), Et.
  rewrite (IH (String.length rest) ltac:(lia) rest ts eq_refl Er).
  - destruct (tokenize after); [|reflexivity]. destruct o; reflexivity.
  - rewrite Hs in Hap. exact (apart_suffix _ _ _ Hap).
Qed.

Lemma mismatch_not_op c after v r :
  tok_regex (String c after) = Some ("MISMATCH", v, r) -> is_op c = false.
Proof.
  unfold tok_regex.
  destruct (is_digit c);
    [destruct (span is_digit (String c after)); discriminate|].
  destruct (is_ident_start c);
    [destruct (span is_word after); discriminate|].
  destruct (if is_quote c then closing_quote after else None) as [[b r']|];
    [discriminate|].
  destruct (is_op c); [|reflexivity].
  destruct (span is_op (String c after)); discriminate.
Qed.

End Prefix.

(** C10. The whole source text is tokenized before anything is parsed or
    executed: when the lexer raises, the run ends with that exception,
    nothing printed and no variable bound. A character [c] that the lexer
    rejects, anywhere in the text, makes it raise: when the text [before]
    the character is lexed by itself, whatever string literals and print
    statements it holds, when only the catch-all pattern matches at [c], and
    when [c] does not continue a word that [before] ends in, the run of the
    whole text ends with the error that names [c] and prints nothing. So it
    is with a character that no token pattern accepts in a text without
    double quotes before it. *)
Theorem lexical_error_aborts_run :
  (forall source_code e,
      Lexer.tokenize source_code = Err e ->
      run source_code = (Err e, Interpreter.init)
      /\ output_of source_code = []
      /\ variables_after source_code = ∅)
  /\ (forall before c after toks,
        Lexer.tokenize before = Ok toks ->
        Lexer.tok_regex (String c after)
        = Some ("MISMATCH", Lexer.single c, after) ->
        (ends_in is_word before = true -> is_word c = false) ->
        Lexer.tokenize (before ++ String c after)
        = Err (RuntimeError ("Unexpected character: " ++ Lexer.single c))
        /\ run (before ++ String c after)
           = (Err (RuntimeError ("Unexpected character: " ++ Lexer.single c)),
              Interpreter.init)
        /\ output_of (before ++ String c after) = [])
  /\ (forall before c after,
        all_chars not_quote before = true -> unmatched c = true ->
        exists e, Lexer.tokenize (before ++ String c after) = Err e
                  /\ run (before ++ String c after) = (Err e, Interpreter.init)
                  /\ output_of (before ++ String c after) = [])
  /\ run "print 1 print 2 @ print 3"
     = (Err (RuntimeError "Unexpected character: @"), Interpreter.init)
  /\ run ("print " ++ quoted "a" ++ " @")
     = (Err (RuntimeError "Unexpected character: @"), Interpreter.init).
Proof.
  assert (forall source_code e,
             Lexer.tokenize source_code = Err e ->
             run source_code = (Err e, Interpreter.init)
             /\ output_of source_code = []
             /\ variables_after source_code = ∅) as H.
  { intros source_code e He. unfold output_of, variables_after.
    rewrite (run_tokenize_error source_code e He). auto. }
  split; [exact H|]. split; [|split; [|split; vm_compute; reflexivity]].
  - intros before c after toks Hb Hc Hw.
    assert (Lexer.tokenize (before ++ String c after)
            = Err (RuntimeError ("Unexpected character: " ++ Lexer.single c)))
      as He.
    { rewrite (tokenize_app before (String c after) toks Hb).
      - rewrite tokenize_step, Hc. reflexivity.
      - unfold apart. cbn [stops].
        rewrite (mismatch_not_op c after _ _ Hc). cbn [negb].
        rewrite orb_true_r, andb_true_r.
        destruct (ends_in is_word before); [|reflexivity].
        now rewrite Hw. }
    destruct (H _ _ He) as (H1 & H2 & _). auto.
  - intros before c after Hb Hc.
    destruct (tokenize_unmatched before c after Hb Hc) as [e He].
    exists e. destruct (H _ _ He) as (H1 & H2 & _). auto.
Qed.

Lemma lexical_error_aborts_run_witness :
  output_of ("print 1 print 2 " ++ String "@" " print 3") = []
  /\ run "print 1 #"
     = (Err (RuntimeError "Unexpected character: #"), Interpreter.init)
  /\ output_of (("print " ++ quoted "a" ++ " print 2 ") ++ String "$" " print 3")
     = [].
Proof.
  destruct lexical_error_aborts_run as (H1 & H2 & H3 & _).
  split; [|split].
  - destruct (H3 "print 1 print 2 " "@"%char " print 3") as (e & _ & _ & Hout).
    + reflexivity.
    + reflexivity.
    + exact Hout.
  - apply (H1 "print 1 #" (RuntimeError "Unexpected character: #")).
    reflexivity.
  - destruct (H2 ("print " ++ quoted "a" ++ " print 2 ") "$"%char " print 3"
                [("PRINT", TStr "print"); ("STRING", TStr "a");
                 ("PRINT", TStr "print"); ("NUMBER", TInt 2)])
      as (_ & _ & Hout).
    + vm_compute. reflexivity.
    + reflexivity.
    + intros _. reflexivity.
    + exact Hout.
Defined.

(* ===================================================================== *)
(** ** More about the parser *)
(* ===================================================================== *)

Section ParserMore.
Import Parser.

Lemma in_list_false_cons k a l :
  in_list k (a :: l) = false -> String.eqb k a = false /\ in_list k l = false.
Proof. unfold in_list. simpl. apply orb_false_elim. Qed.

Lemma parse_statement_rejects fuel k v toks :
  in_list k ["INT"; "STRING"; "IF"; "FOR"; "PRINT"] = false ->
  parse_statement (S fuel) (mk toks (Some (k, v)))
  = (Err (RuntimeError ("Unexpected token: " ++ k)), mk toks (Some (k, v))).
Proof.
  intros H.
  apply in_list_false_cons in H as [H1 H].
  apply in_list_false_cons in H as [H2 H].
  apply in_list_false_cons in H as [H3 H].
  apply in_list_false_cons in H as [H4 H].
  apply in_list_false_cons in H as [H5 _].
  cbn [parse_statement]. unfold statement_dispatch.
  rewrite bind_gets_at. cbn [current_token].
  rewrite H1, H2, H3, H4, H5. reflexivity.
Qed.

(** A statement can only start with [int], [string] (or a string literal),
    [if], [for] or [print]: on a token of any other kind, [parse_statement]
    raises the error that names the kind and consumes nothing. An opening
    brace is such a token. *)
Theorem statement_rejects_other_kinds
    (fuel : nat) (k : string) (v : tokval) (toks : list token) :
  in_list k ["INT"; "STRING"; "IF"; "FOR"; "PRINT"] = false ->
  parse_statement (S fuel) (mk toks (Some (k, v)))
  = (Err (RuntimeError ("Unexpected token: " ++ k)), mk toks (Some (k, v))).
Proof.
  intros H. unfold in_list in H. cbn [existsb] in H.
  rewrite !orb_false_iff in H.
  destruct H as (H1 & H2 & H3 & H4 & H5 & _).
  cbn [parse_statement]. unfold statement_dispatch.
  rewrite bind_gets_at. cbn [current_token].
  rewrite H1, H2, H3, H4, H5. reflexivity.
Qed.

Lemma statement_rejects_other_kinds_witness :
  parse_statement 1 (mk [("PRINT", TStr "print")] (Some ("LBRACE", TStr "{")))
  = (Err (RuntimeError "Unexpected token: LBRACE"),
     mk [("PRINT", TStr "print")] (Some ("LBRACE", TStr "{"))).
Proof. apply statement_rejects_other_kinds. reflexivity. Defined.

(** An expression can only start with an opening parenthesis, a number, a
    string or an identifier: on a token of any other kind, a keyword such
    as [range] included, [parse_expression] raises the error that names the
    kind and consumes nothing. *)
Theorem expression_rejects_other_kinds
    (fuel : nat) (k : string) (v : tokval) (toks : list token) :
  in_list k ["LPAREN"; "NUMBER"; "STRING"; "IDENT"] = false ->
  parse_expression (S fuel) (mk toks (Some (k, v)))
  = (Err (RuntimeError ("Unexpected token in expression: " ++ k)),
     mk toks (Some (k, v))).
Proof.
  intros H.
  apply in_list_false_cons in H as [H1 H].
  cbn [parse_expression]. rewrite bind_gets_at. cbn [current_token].
  rewrite H1, H. reflexivity.
Qed.

Lemma expression_rejects_other_kinds_witness :
  parse_expression 1 (mk [] (Some ("RANGE", TStr "range")))
  = (Err (RuntimeError "Unexpected token in expression: RANGE"),
     mk [] (Some ("RANGE", TStr "range"))).
Proof. apply expression_rejects_other_kinds. reflexivity. Defined.

(** The three ways a block ends or fails at its first token: at the end of
    the input it is empty and no closing brace is asked for; at a closing
    brace it is empty and the brace is consumed; at any other token that
    cannot start a statement, an opening brace for one, it raises the error
    of [parse_statement]. *)
Theorem block_edges (fuel : nat) (k : string) (v : tokval) (toks : list token) :
  parse_block (S fuel) (mk [] None) = (Ok [], mk [] None)
  /\ parse_block (S fuel) (mk toks (Some (k, TStr "}"))) = (Ok [], init toks)
  /\ (v <> TStr "}" ->
      in_list k ["INT"; "STRING"; "IF"; "FOR"; "PRINT"] = false ->
      parse_block (S (S fuel)) (mk toks (Some (k, v)))
      = (Err (RuntimeError ("Unexpected token: " ++ k)),
         mk toks (Some (k, v)))).
Proof.
  split; [reflexivity|]. split.
  - unfold parse_block. cbn [block_loop].
    unfold bind at 1. rewrite bind_gets_at. cbn [current_token].
    rewrite bool_decide_eq_true_2 by reflexivity. cbn [negb].
    unfold ret at 1. unfold close_block, current_value_is.
    unfold bind at 1. rewrite bind_gets_at. cbn [current_token].
    rewrite bool_decide_eq_true_2 by reflexivity.
    destruct toks; reflexivity.
  - intros Hv Hk. unfold parse_block.
    change (block_loop (S (S fuel)))
      with (cur <- gets current_token ;;
            match cur with
            | Some (_, v) =>
                if negb (bool_decide (v = TStr "}")) then
                  s <- parse_statement (S fuel) ;;
                  statements <- block_loop (S fuel) ;;
                  ret (s :: statements)
                else ret []
            | None => ret []
            end).
    unfold bind at 1. rewrite bind_gets_at. cbn [current_token].
    rewrite bool_decide_eq_false_2 by exact Hv. cbn [negb].
    unfold bind at 1.
    rewrite (parse_statement_rejects fuel k v toks Hk).
    reflexivity.
Qed.

Lemma block_edges_witness :
  parse_block 2 (mk [("PRINT", TStr "print")] (Some ("LBRACE", TStr "{")))
  = (Err (RuntimeError "Unexpected token: LBRACE"),
     mk [("PRINT", TStr "print")] (Some ("LBRACE", TStr "{"))).
Proof.
  destruct (block_edges 0 "LBRACE" (TStr "{") [("PRINT", TStr "print")])
    as (_ & _ & H).
  apply H; [discriminate | reflexivity].
Defined.

(** A loop needs the word [in] after its variable: when the second token
    after [for] is missing or has another value, [parse_for] raises its
    own error, whatever else follows. *)
Theorem for_requires_in (fuel : nat) (v : tokval) (toks : list token) :
  match toks with
  | _ :: (_, v') :: _ => v' <> TStr "in"
  | _ => True
  end ->
  fst (parse_statement (S fuel) (mk toks (Some ("FOR", v))))
  = Err (RuntimeError expected_in).
Proof.
  destruct toks as [|t [|[k' v'] rest]]; intros H; try reflexivity.
  cbn [parse_statement]. unfold statement_dispatch.
  rewrite bind_gets_at. cbn [current_token String.eqb Ascii.eqb Bool.eqb orb].
  unfold parse_for.
  unfold bind at 1. cbn [next_token modify tokens].
  rewrite bind_gets_at. cbn [current_token].
  unfold bind at 1. cbn [next_token modify tokens].
  unfold bind at 1. unfold current_value_is at 1.
  rewrite bind_gets_at. cbn [current_token].
  rewrite bool_decide_eq_false_2 by exact H. reflexivity.
Qed.

Lemma for_requires_in_witness :
  fst (parse_statement 1
         (mk [("IDENT", TStr "i"); ("NUMBER", TInt 3); ("COLON", TStr ":")]
            (Some ("FOR", TStr "for"))))
  = Err (RuntimeError expected_in).
Proof. apply for_requires_in. discriminate. Defined.

(** Parentheses leave no node: a parenthesised expression parses to the
    expression inside, the closing parenthesis is consumed, and an operator
    that follows it is left where it is. Any other token in the place of the
    closing parenthesis gives the parser's own error, and the end of the
    input there a TypeError of the Python runtime. *)
Theorem parenthesised_expression
    (fuel : nat) (v : tokval) (toks toks' : list token) (e : expr)
    (cur : option token) :
  parse_expression fuel (init toks) = (Ok e, mk toks' cur) ->
  parse_expression (S fuel) (mk toks (Some ("LPAREN", v)))
  = match cur with
    | Some (k, _) =>
        if String.eqb k "RPAREN" then (Ok e, init toks')
        else (Err (RuntimeError expected_rparen), mk toks' cur)
    | None => (Err TypeError, mk toks' cur)
    end.
Proof.
  intros H. cbn [parse_expression]. rewrite bind_gets_at.
  cbn [current_token String.eqb Ascii.eqb Bool.eqb].
  unfold bind at 1.
  change (next_token (mk toks (Some ("LPAREN", v)))) with (Ok tt, init toks).
  cbv iota. unfold bind at 1. rewrite H. rewrite bind_gets_at.
  cbn [current_token]. destruct cur as [[k v']|]; [|reflexivity].
  destruct (String.eqb k "RPAREN"); reflexivity.
Qed.

Lemma parenthesised_expression_witness :
  parse_expression 2
    (mk [("NUMBER", TInt 1); ("RPAREN", TStr ")"); ("OP", TStr "+");
         ("NUMBER", TInt 2)]
       (Some ("LPAREN", TStr "(")))
  = (Ok (Atom "NUMBER" (TInt 1)),
     mk [("NUMBER", TInt 2)] (Some ("OP", TStr "+"))).
Proof.
  rewrite (parenthesised_expression 1 (TStr "(") _
             [("OP", TStr "+"); ("NUMBER", TInt 2)]
             (Atom "NUMBER" (TInt 1)) (Some ("RPAREN", TStr ")")));
    reflexivity.
Defined.

Lemma stream_next self : stream (snd (next_token self)) = tokens self.
Proof. destruct self as [[|tok toks] cur]; reflexivity. Qed.

Lemma in_order_ret {A} (a : A) : in_order (ret a).
Proof. intros self. exists []. reflexivity. Qed.

Lemma in_order_raise {A} e : in_order (@raise Parser.t A e).
Proof. intros self. exists []. reflexivity. Qed.

Lemma in_order_gets {A} (f : Parser.t -> A) : in_order (gets f).
Proof. intros self. exists []. reflexivity. Qed.

Lemma in_order_next_token : in_order next_token.
Proof.
  intros self. rewrite stream_next. unfold stream.
  destruct (current_token self) as [tok|]; [exists [tok] | exists []];
    reflexivity.
Qed.

Lemma in_order_bind {A B} (m : M Parser.t A) (k : A -> M Parser.t B) :
  in_order m -> (forall a, in_order (k a)) -> in_order (a <- m ;; k a).
Proof.
  intros Hm Hk self. destruct (Hm self) as [u1 H1]. unfold bind.
  destruct (m self) as [[a|err] s1]; simpl in *.
  - destruct (Hk a s1) as [u2 H2]. exists (u1 ++ u2)%list.
    rewrite H1, H2. now rewrite <- app_assoc.
  - exists u1. exact H1.
Qed.

Ltac in_order_step :=
  first
    [ apply in_order_ret
    | apply in_order_raise
    | apply in_order_gets
    | apply in_order_next_token
    | assumption
    | apply in_order_bind; [|intros ?]
    | match goal with
      | |- in_order (if ?b then _ else _) => destruct b
      | |- in_order (match ?x with _ => _ end) => destruct x
      end ].

Lemma in_order_expression fuel : in_order (parse_expression fuel).
Proof.
  induction fuel as [|fuel IH]; cbn [parse_expression];
    [apply in_order_raise|].
  unfold current_value_is, in_list. repeat in_order_step.
Qed.

Lemma in_order_productions expression block :
  in_order expression -> in_order block ->
  in_order (statement_dispatch expression block).
Proof.
  intros He Hb.
  unfold statement_dispatch, parse_declaration, parse_if, parse_for,
    parse_print, skip_colon, current_value_is, current_kind_is, index1.
  repeat in_order_step.
Qed.

Lemma in_order_close_block statements : in_order (close_block statements).
Proof. unfold close_block, current_value_is. repeat in_order_step. Qed.

Lemma in_order_statement fuel :
  in_order (parse_statement fuel) /\ in_order (block_loop fuel).
Proof.
  induction fuel as [|fuel [IHs IHl]]; [split; apply in_order_raise|].
  split.
  - cbn [parse_statement]. apply in_order_productions.
    + apply in_order_expression.
    + apply in_order_bind; [exact IHl | intros a; apply in_order_close_block].
  - cbn [block_loop]. repeat in_order_step.
Qed.

Lemma in_order_program fuel : in_order (parse_program fuel).
Proof.
  induction fuel as [|fuel IH]; cbn [parse_program]; [apply in_order_raise|].
  pose proof (proj1 (in_order_statement fuel)). repeat in_order_step.
Qed.

(** After [next_token] with a look-ahead, that token is gone for good. *)
Lemma takes_after_next {A} (m : M Parser.t A) self tok :
  current_token self = Some tok -> in_order m ->
  exists used,
    used <> [] /\ stream self = (used ++ stream (snd ((next_token ;;; m) self)))%list.
Proof.
  intros Hc Hm.
  assert ((next_token ;;; m) self = m (snd (next_token self))) as ->
      by reflexivity.
  destruct (Hm (snd (next_token self))) as [used Hu].
  rewrite stream_next in Hu. exists (tok :: used). split; [discriminate|].
  unfold stream at 1. rewrite Hc, Hu. reflexivity.
Qed.

Lemma takes_some_expression fuel : takes_some (parse_expression fuel).
Proof.
  intros self a self' H. destruct fuel as [|fuel]; [discriminate|].
  revert H. cbn [parse_expression]. rewrite bind_gets_at.
  destruct (current_token self) as [[token_type value]|] eqn:Ec;
    [|discriminate].
  pose proof (in_order_expression fuel) as He.
  destruct (String.eqb token_type "LPAREN").
  { intros H.
    match type of H with
    | (next_token ;;; ?m) self = _ =>
        destruct (takes_after_next m self _ Ec) as (used & Hne & Hu)
    end.
    - unfold in_list. repeat in_order_step.
    - rewrite H in Hu. eauto. }
  destruct (in_list token_type ["NUMBER"; "STRING"; "IDENT"]); [|discriminate].
  intros H.
  match type of H with
  | (next_token ;;; ?m) self = _ =>
      destruct (takes_after_next m self _ Ec) as (used & Hne & Hu)
  end.
  - repeat in_order_step.
  - rewrite H in Hu. eauto.
Qed.

Lemma takes_some_statement fuel : takes_some (parse_statement fuel).
Proof.
  intros self a self' H. destruct fuel as [|fuel]; [discriminate|].
  revert H. cbn [parse_statement]. unfold statement_dispatch.
  rewrite bind_gets_at.
  destruct (current_token self) as [[k v]|] eqn:Ec; [|discriminate].
  pose proof (in_order_expression fuel) as He.
  assert (in_order (statements <- block_loop fuel ;; close_block statements))
    as Hb.
  { apply in_order_bind; [apply in_order_statement
                         | intros a0; apply in_order_close_block]. }
  destruct (String.eqb k "INT" || String.eqb k "STRING").
  { unfold parse_declaration. rewrite bind_gets_at. intros H.
    match type of H with
    | (next_token ;;; ?m) self = _ =>
        destruct (takes_after_next m self _ Ec) as (used & Hne & Hu)
    end.
    - unfold current_value_is, index1. repeat in_order_step.
    - rewrite H in Hu. eauto. }
  destruct (String.eqb k "IF").
  { unfold parse_if. intros H.
    match type of H with
    | (next_token ;;; ?m) self = _ =>
        destruct (takes_after_next m self _ Ec) as (used & Hne & Hu)
    end.
    - unfold skip_colon, current_value_is, current_kind_is.
      repeat in_order_step.
    - rewrite H in Hu. eauto. }
  destruct (String.eqb k "FOR").
  { unfold parse_for. intros H.
    match type of H with
    | (next_token ;;; ?m) self = _ =>
        destruct (takes_after_next m self _ Ec) as (used & Hne & Hu)
    end.
    - unfold skip_colon, current_value_is, index1. repeat in_order_step.
    - rewrite H in Hu. eauto. }
  destruct (String.eqb k "PRINT"); [|discriminate].
  unfold parse_print. intros H.
  match type of H with
  | (next_token ;;; ?m) self = _ =>
      destruct (takes_after_next m self _ Ec) as (used & Hne & Hu)
  end.
  - repeat in_order_step.
  - rewrite H in Hu. eauto.
Qed.

(** The parser takes its tokens from the front, in order, and puts none
    back: after [parse_expression], [parse_statement], [parse_block] or
    [parse_program], whether it returned or raised, the tokens in front of
    the parser are a suffix of those that were in front of it before. An
    expression or a statement that is returned has taken at least one
    token. *)
Theorem parser_consumes_in_order (fuel : nat) :
  in_order (parse_expression fuel)
  /\ in_order (parse_statement fuel)
  /\ in_order (parse_block fuel)
  /\ in_order (parse_program fuel)
  /\ takes_some (parse_expression fuel)
  /\ takes_some (parse_statement fuel).
Proof.
  split; [apply in_order_expression|].
  split; [apply in_order_statement|].
  split.
  { unfold parse_block. apply in_order_bind;
      [apply in_order_statement | intros a; apply in_order_close_block]. }
  split; [apply in_order_program|].
  split; [apply takes_some_expression | apply takes_some_statement].
Qed.

Lemma parser_consumes_in_order_witness :
  exists used,
    used <> []
    /\ stream (mk [("NUMBER", TInt 1); ("PRINT", TStr "print")]
                  (Some ("PRINT", TStr "print")))
       = (used ++ stream (mk [] (Some ("PRINT", TStr "print"))))%list.
Proof.
  destruct (parser_consumes_in_order 2) as (_ & _ & _ & _ & _ & H).
  apply (H _ (PRINT (Atom "NUMBER" (TInt 1)))). reflexivity.
Defined.

Lemma explained_ret {A} (a : A) : explained (ret a).
Proof. intros self Hw. split; [exact Hw | discriminate]. Qed.

Lemma explained_gets {A} (f : Parser.t -> A) : explained (gets f).
Proof. intros self Hw. split; [exact Hw | discriminate]. Qed.

Lemma explained_next_token : explained next_token.
Proof.
  intros self Hw. split; [now apply next_token_step | discriminate].
Qed.

Lemma explained_bind {A B} (m : M Parser.t A) (k : A -> M Parser.t B) :
  explained m -> (forall a, explained (k a)) -> explained (a <- m ;; k a).
Proof.
  intros Hm Hk self Hw. destruct (Hm self Hw) as [H1 H2].
  unfold explained_at, bind. destruct (m self) as [[a|err] s1]; simpl in *.
  - now apply Hk.
  - split; [exact H1|]. intros e E. apply H2. now inversion E.
Qed.

Lemma explained_at_gets {A B} (f : Parser.t -> A) (k : A -> M Parser.t B) self :
  explained_at (k (f self)) self -> explained_at (a <- gets f ;; k a) self.
Proof. intros H. exact H. Qed.

Lemma explained_at_next {A} (m : M Parser.t A) self :
  explained_at m (snd (next_token self)) -> explained_at (next_token ;;; m) self.
Proof. intros H. exact H. Qed.

Lemma explained_gets_bind {A B} (f : Parser.t -> A) (k : A -> M Parser.t B) :
  (forall self, well_formed self -> explained_at (k (f self)) self) ->
  explained (a <- gets f ;; k a).
Proof. intros H self Hw. apply explained_at_gets. now apply H. Qed.

Lemma explained_at_raise {A} e self :
  well_formed self -> explains e self -> explained_at (@raise Parser.t A e) self.
Proof.
  intros Hw He. split; [exact Hw|]. intros e' H. inversion H; subst. exact He.
Qed.

Lemma explained_in {A} : explained (@raise Parser.t A (RuntimeError expected_in)).
Proof. intros self Hw. apply explained_at_raise; [exact Hw | now left]. Qed.

Lemma explained_fuel {A} : explained (@raise Parser.t A OutOfFuel).
Proof. intros self Hw. apply explained_at_raise; [exact Hw | exact I]. Qed.

Lemma no_tokens_left self :
  well_formed self -> current_token self = None -> self = mk [] None.
Proof.
  destruct self as [toks cur]. unfold well_formed. simpl.
  intros Hw ->. now rewrite (Hw eq_refl).
Qed.

Ltac explained_step :=
  first
    [ apply explained_ret
    | apply explained_gets
    | apply explained_next_token
    | apply explained_in
    | apply explained_fuel
    | assumption
    | apply explained_bind; [|intros ?]
    | match goal with
      | |- explained (if ?b then _ else _) => destruct b
      | |- explained (match ?x with _ => _ end) => destruct x
      end ].

(** From a parser run at one place to the parser run anywhere. *)
Ltac explained_anywhere :=
  match goal with
  | Hw : well_formed ?s |- explained_at ?m ?s =>
      cut (explained m); [intros Hx; exact (Hx s Hw)|]
  end.

Lemma explained_expression fuel : explained (parse_expression fuel).
Proof.
  induction fuel as [|fuel IH]; cbn [parse_expression];
    [apply explained_fuel|].
  apply explained_gets_bind. intros self Hw.
  destruct (current_token self) as [[token_type value]|] eqn:Ec;
    [|now apply explained_at_raise].
  destruct (String.eqb token_type "LPAREN").
  { explained_anywhere.
    apply explained_bind; [apply explained_next_token | intros _].
    apply explained_bind; [exact IH | intros e].
    apply explained_gets_bind. intros s Hs.
    destruct (current_token s) as [[k v]|] eqn:Es;
      [|now apply explained_at_raise].
    destruct (String.eqb k "RPAREN") eqn:Ek; cbn [negb].
    - explained_anywhere. repeat explained_step.
    - apply explained_at_raise; [exact Hs|]. right. exists k, v.
      split; [exact Es|]. right. right. split; [reflexivity|].
      intros ->. discriminate Ek. }
  destruct (in_list token_type ["NUMBER"; "STRING"; "IDENT"]).
  { explained_anywhere. repeat explained_step. }
  apply explained_at_raise; [exact Hw|]. right. exists token_type, value.
  split; [exact Ec|]. right. left. reflexivity.
Qed.

Lemma explained_current_value_is text : explained (current_value_is text).
Proof. unfold current_value_is. repeat explained_step. Qed.

Lemma explained_current_kind_is k : explained (current_kind_is k).
Proof. unfold current_kind_is. repeat explained_step. Qed.

Lemma explained_skip_colon : explained skip_colon.
Proof.
  unfold skip_colon.
  apply explained_bind; [apply explained_current_value_is|].
  intros []; repeat explained_step.
Qed.

Lemma explained_close_block statements : explained (close_block statements).
Proof.
  unfold close_block.
  apply explained_bind; [apply explained_current_value_is|].
  intros []; repeat explained_step.
Qed.

Section ExplainedProductions.
Variable expression : M Parser.t expr.
Variable block : M Parser.t (list stmt).
Hypothesis explained_e : explained expression.
Hypothesis explained_b : explained block.

Ltac explained_all :=
  repeat first
    [ apply explained_current_value_is
    | apply explained_current_kind_is
    | apply explained_skip_colon
    | explained_step ].

(** The name of a declaration is indexed last: when there was no token for
    it, nothing was left to parse in between. *)
Lemma explained_declaration self tok :
  well_formed self -> current_token self = Some tok ->
  explained_at (parse_declaration expression) self.
Proof.
  intros Hw Ec. unfold parse_declaration.
  apply explained_at_gets. rewrite Ec.
  apply explained_at_next. apply explained_at_gets.
  destruct (next_token_step self Hw) as [Hw1 _].
  destruct (current_token (snd (next_token self))) as [t1|] eqn:E1.
  - apply explained_at_next.
    destruct (next_token_step _ Hw1) as [Hw2 _].
    explained_anywhere. destruct tok, t1. cbn [index1]. explained_all.
  - rewrite (no_tokens_left _ Hw1 E1). destruct tok as [k v].
    split; [intros _; reflexivity|].
    intros e H. vm_compute in H. inversion H; subst. reflexivity.
Qed.

Lemma explained_for self :
  well_formed self -> explained_at (parse_for expression block) self.
Proof.
  intros Hw. unfold parse_for.
  apply explained_at_next. apply explained_at_gets.
  destruct (next_token_step self Hw) as [Hw1 _].
  destruct (current_token (snd (next_token self))) as [t1|] eqn:E1.
  - apply explained_at_next.
    destruct (next_token_step _ Hw1) as [Hw2 _].
    explained_anywhere. destruct t1. cbn [index1]. explained_all.
  - rewrite (no_tokens_left _ Hw1 E1).
    split; [intros _; reflexivity|].
    intros e H. vm_compute in H. inversion H; subst. now left.
Qed.

Lemma explained_dispatch : explained (statement_dispatch expression block).
Proof.
  unfold statement_dispatch. apply explained_gets_bind. intros self Hw.
  destruct (current_token self) as [[k v]|] eqn:Ec;
    [|now apply explained_at_raise].
  destruct (String.eqb k "INT" || String.eqb k "STRING");
    [now apply (explained_declaration self (k, v))|].
  destruct (String.eqb k "IF").
  { explained_anywhere. unfold parse_if. explained_all. }
  destruct (String.eqb k "FOR"); [now apply explained_for|].
  destruct (String.eqb k "PRINT").
  { explained_anywhere. unfold parse_print. explained_all. }
  apply explained_at_raise; [exact Hw|]. right. exists k, v.
  split; [exact Ec|]. left. reflexivity.
Qed.

End ExplainedProductions.

Lemma explained_statement fuel :
  explained (parse_statement fuel) /\ explained (block_loop fuel).
Proof.
  induction fuel as [|fuel [IHs IHl]]; [split; apply explained_fuel|].
  split.
  - cbn [parse_statement]. apply explained_dispatch.
    + apply explained_expression.
    + apply explained_bind; [exact IHl | apply explained_close_block].
  - cbn [block_loop]. repeat explained_step.
Qed.

Lemma explained_program fuel : explained (parse_program fuel).
Proof.
  induction fuel as [|fuel IH]; cbn [parse_program];
    [apply explained_fuel|].
  pose proof (proj1 (explained_statement fuel)). repeat explained_step.
Qed.

(** Where the parser fails with a TypeError, the look-ahead it indexed is
    [None]: the input has ended where a token was needed. Where it fails
    with a RuntimeError, the message is the one of a [for] without [in], or
    it names the kind of the token the parser stopped at, which is still
    the look-ahead: an unexpected token at the start of a statement or of an
    expression, or a token that is no closing parenthesis where one was
    expected. *)
Theorem parse_failures (toks : list token) (e : error) :
  parse toks = Err e ->
  explains e (snd (parse_program (fuel_for toks) (init toks))).
Proof.
  intros H.
  apply (explained_program (fuel_for toks) (init toks));
    [apply init_well_formed | exact H].
Qed.

Lemma parse_failures_witness :
  explains (RuntimeError "Unexpected token in expression: COLON")
    (mk [("NUMBER", TInt 1)] (Some ("COLON", TStr ":")))
  /\ explains TypeError (mk [] None).
Proof.
  split.
  - apply (parse_failures
             [("PRINT", TStr "print"); ("NUMBER", TInt 2); ("OP", TStr "+");
              ("COLON", TStr ":"); ("NUMBER", TInt 1)]).
    reflexivity.
  - apply (parse_failures [("INT", TStr "int")]). reflexivity.
Defined.

End ParserMore.

(* ===================================================================== *)
(** ** More about the interpreter *)
(* ===================================================================== *)

Section InterpreterMore.
Import Interpreter.

Lemma apply_operation_result op l r s1 s2 :
  fst (apply_operation op l r s1) = fst (apply_operation op l r s2).
Proof.
  unfold apply_operation, lift, ret, raise.
  repeat destruct (op_is op _); reflexivity.
Qed.

Lemma evaluate_result e s1 s2 : fst (evaluate e s1) = fst (evaluate e s2).
Proof.
  revert s1 s2. induction e as [op l IHl r IHr | token_type v]; intros s1 s2.
  - cbn [evaluate]. unfold bind.
    rewrite (evaluate_pure l s1), (evaluate_pure l s2), (IHl s1 s2).
    destruct (fst (evaluate l s2)) as [lv|err]; [|reflexivity].
    rewrite (evaluate_pure r s1), (evaluate_pure r s2), (IHr s1 s2).
    destruct (fst (evaluate r s2)) as [rv|err]; [|reflexivity].
    apply apply_operation_result.
  - cbn [evaluate]. unfold ret, raise.
    repeat match goal with
           | |- context [if ?b then _ else _] => destruct b
           end; reflexivity.
Qed.

(** The value of an expression, or the exception it raises, is the same in
    every environment: [evaluate] never reads a variable. *)
Theorem evaluate_ignores_environment (e : expr) (s1 s2 : Interpreter.t) :
  evaluate e s1 = (fst (evaluate e s2), s1).
Proof.
  rewrite (evaluate_pure e s1). f_equal.
  revert s1 s2. induction e as [op l IHl r IHr | token_type v]; intros s1 s2.
  - cbn [evaluate]. unfold bind.
    rewrite (evaluate_pure l s1), (evaluate_pure l s2), (IHl s1 s2).
    destruct (fst (evaluate l s2)) as [lv|err]; [|reflexivity].
    rewrite (evaluate_pure r s1), (evaluate_pure r s2), (IHr s1 s2).
    destruct (fst (evaluate r s2)) as [rv|err]; [|reflexivity].
    apply apply_operation_result.
  - apply evaluate_result.
Qed.

Section Structural.
(** What holds of [execute] as soon as it holds of the operations
    [execute] is made of and is kept by sequencing. *)
Variable Q : forall A, M Interpreter.t A -> Prop.
Hypothesis Q_ret : forall A (a : A), Q A (ret a).
Hypothesis Q_bind :
  forall A B (m : M Interpreter.t A) (k : A -> M Interpreter.t B),
    Q A m -> (forall a, Q B (k a)) -> Q B (a <- m ;; k a).
Hypothesis Q_evaluate : forall e, Q value (evaluate e).
Hypothesis Q_assign : forall name v, Q unit (assign name v).
Hypothesis Q_print : forall v, Q unit (print v).
Hypothesis Q_lift : forall A (r : result A), Q A (lift r).

Lemma structural_interpret_with execute block :
  Forall (fun node => Q unit (execute node)) block ->
  Q unit (interpret_with execute block).
Proof.
  induction 1 as [|node rest Hn _ IH]; simpl; [apply Q_ret|].
  apply Q_bind; auto.
Qed.

Lemma structural_for_range body i count :
  (forall j, Q unit (body j)) -> Q unit (for_range body i count).
Proof.
  intros Hb. revert i. induction count as [|count IH]; intros i; simpl;
    [apply Q_ret|].
  apply Q_bind; auto.
Qed.

Lemma structural_execute node : Q unit (execute node).
Proof.
  induction node as [type_ name value | condition if_block else_block IHa IHb
                    | ident range_expr block IH | e] using stmt_ind;
    cbn [execute].
  - destruct value as [e|]; [|apply Q_ret].
    apply Q_bind; [apply Q_evaluate | intros v; apply Q_assign].
  - apply Q_bind; [apply Q_evaluate|]. intros c.
    destruct (Py.truthy c); [now apply structural_interpret_with|].
    destruct else_block as [[|node rest]|]; try apply Q_ret.
    now apply (structural_interpret_with execute (node :: rest)).
  - apply Q_bind; [apply Q_evaluate|]. intros bound.
    apply Q_bind; [apply Q_lift|]. intros n.
    apply structural_for_range. intros j.
    apply Q_bind; [apply Q_assign|]. intros _.
    now apply structural_interpret_with.
  - apply Q_bind; [apply Q_evaluate | intros v; apply Q_print].
Qed.

Lemma structural_interpret ast : Q unit (interpret ast).
Proof.
  apply structural_interpret_with. apply Forall_forall.
  intros node _. apply structural_execute.
Qed.

End Structural.

Lemma blind_bind A B (m : M Interpreter.t A) (k : A -> M Interpreter.t B) :
  blind m -> (forall a, blind (k a)) -> blind (a <- m ;; k a).
Proof.
  intros Hm Hk s1 s2 Hs. destruct (Hm s1 s2 Hs) as [H1 H2]. unfold bind.
  destruct (m s1) as [[a1|e1] t1], (m s2) as [[a2|e2] t2]; simpl in *;
    try discriminate.
  - inversion H1; subst. now apply Hk.
  - inversion H1; subst. auto.
Qed.

Lemma blind_evaluate e : blind (evaluate e).
Proof.
  intros s1 s2 Hs. rewrite (evaluate_pure e s1), (evaluate_pure e s2).
  simpl. split; [apply evaluate_result | exact Hs].
Qed.

(** What a statement prints, and whether and how it fails, does not depend
    on the variables: run from two interpreters that have printed the same
    so far, it ends the same way with the same output. Variables are
    written, never read. *)
Theorem output_ignores_variables
    (node : stmt) (vars1 vars2 : gmap tokval value) (out : list value) :
  fst (execute node (mk vars1 out)) = fst (execute node (mk vars2 out))
  /\ stdout (snd (execute node (mk vars1 out)))
     = stdout (snd (execute node (mk vars2 out))).
Proof.
  assert (blind (execute node)) as H.
  { apply (structural_execute (@blind)).
    - intros A a s1 s2 Hs. auto.
    - exact blind_bind.
    - exact blind_evaluate.
    - intros name v s1 s2 Hs. simpl. auto.
    - intros v s1 s2 Hs. unfold print.
      destruct (printable v); simpl; [|auto].
      split; [reflexivity | now rewrite Hs].
    - intros A r s1 s2 Hs. auto. }
  apply H. reflexivity.
Qed.

Lemma appends_bind A B (m : M Interpreter.t A) (k : A -> M Interpreter.t B) :
  appends m -> (forall a, appends (k a)) -> appends (a <- m ;; k a).
Proof.
  intros Hm Hk self. destruct (Hm self) as [o1 H1]. unfold bind.
  destruct (m self) as [[a|err] s1]; simpl in *.
  - destruct (Hk a s1) as [o2 H2]. exists (o1 ++ o2)%list.
    rewrite H2, H1. now rewrite <- app_assoc.
  - eauto.
Qed.

(** Output is only ever added: what was printed before a statement runs is
    still there, in front, after it has run or raised. *)
Theorem output_only_grows (node : stmt) (self : Interpreter.t) :
  exists out,
    stdout (snd (execute node self)) = (stdout self ++ out)%list.
Proof.
  revert self. change (appends (execute node)).
  apply (structural_execute (@appends)).
  - intros A a self. exists []. simpl. now rewrite app_nil_r.
  - exact appends_bind.
  - intros e self. rewrite evaluate_pure. exists []. simpl.
    now rewrite app_nil_r.
  - intros name v self. exists []. simpl. now rewrite app_nil_r.
  - intros v self. unfold print. destruct (printable v).
    + exists [v]. reflexivity.
    + exists []. simpl. now rewrite app_nil_r.
  - intros A r self. exists []. simpl. now rewrite app_nil_r.
Qed.

Lemma keeps_bound_bind A B (m : M Interpreter.t A) (k : A -> M Interpreter.t B) :
  keeps_bound m -> (forall a, keeps_bound (k a)) -> keeps_bound (a <- m ;; k a).
Proof.
  intros Hm Hk self key Hs. specialize (Hm self key Hs). unfold bind.
  destruct (m self) as [[a|err] s1]; simpl in *; [now apply Hk | exact Hm].
Qed.

(** No statement unbinds a variable: a name that is bound stays bound,
    whether the statement returns or raises. *)
Theorem variables_stay_bound (node : stmt) (self : Interpreter.t) (k : tokval) :
  is_Some (variables self !! k) ->
  is_Some (variables (snd (execute node self)) !! k).
Proof.
  revert self k. change (keeps_bound (execute node)).
  apply (structural_execute (@keeps_bound)).
  - intros A a self key Hs. exact Hs.
  - exact keeps_bound_bind.
  - intros e self key Hs. now rewrite evaluate_pure.
  - intros name v self key Hs. simpl.
    destruct (decide (name = key)) as [->|Hne].
    + rewrite lookup_insert_eq. eauto.
    + now rewrite lookup_insert_ne.
  - intros v self key Hs. unfold print. destruct (printable v); exact Hs.
  - intros A r self key Hs. exact Hs.
Qed.

Lemma variables_stay_bound_witness :
  is_Some
    (variables
       (snd (execute (FOR (TStr "i") (Atom "NUMBER" (TInt 2))
                        [DECLARE (TStr "int") (TStr "y")
                           (Some (Atom "NUMBER" (TInt 1)))])
               (mk {[ TStr "x" := VInt 0 ]} [])))
     !! TStr "x").
Proof. apply variables_stay_bound. vm_compute. eauto. Defined.

Lemma silent_ret {A} (a : A) : silent (ret a).
Proof. intros self. reflexivity. Qed.

Lemma silent_bind {A B} (m : M Interpreter.t A) (k : A -> M Interpreter.t B) :
  silent m -> (forall a, silent (k a)) -> silent (a <- m ;; k a).
Proof.
  intros Hm Hk self. specialize (Hm self). unfold bind.
  destruct (m self) as [[a|err] s1]; simpl in *; [now rewrite Hk | exact Hm].
Qed.

Lemma silent_evaluate e : silent (evaluate e).
Proof. intros self. now rewrite evaluate_pure. Qed.

Lemma silent_interpret_with execute block :
  Forall (fun node => silent (execute node)) block ->
  silent (interpret_with execute block).
Proof.
  induction 1 as [|node rest Hn _ IH]; simpl; [apply silent_ret|].
  apply silent_bind; auto.
Qed.

Lemma silent_for_range body i count :
  (forall j, silent (body j)) -> silent (for_range body i count).
Proof.
  intros Hb. revert i. induction count as [|count IH]; intros i; simpl;
    [apply silent_ret|].
  apply silent_bind; auto.
Qed.

Lemma Forall_silent (P : stmt -> Prop) block :
  Forall (fun node => prints node = false -> P node) block ->
  existsb prints block = false ->
  Forall P block.
Proof.
  induction 1 as [|node rest Hn _ IH]; simpl; intros H; constructor;
    apply orb_false_elim in H as [H1 H2]; auto.
Qed.

Lemma silent_execute node : prints node = false -> silent (execute node).
Proof.
  induction node as [type_ name value | condition if_block else_block IHa IHb
                    | ident range_expr block IH | e] using stmt_ind;
    intros Hp; cbn [execute].
  - destruct value as [e|]; [|apply silent_ret].
    apply silent_bind; [apply silent_evaluate|]. intros v self. reflexivity.
  - simpl in Hp. apply orb_false_elim in Hp as [Ha Hb].
    apply silent_bind; [apply silent_evaluate|]. intros c.
    destruct (Py.truthy c).
    + apply silent_interpret_with. now apply (Forall_silent _ if_block).
    + destruct else_block as [[|node rest]|]; try apply silent_ret.
      apply (silent_interpret_with execute (node :: rest)).
      now apply (Forall_silent _ (node :: rest)).
  - simpl in Hp.
    apply silent_bind; [apply silent_evaluate|]. intros bound.
    apply silent_bind; [intros self; reflexivity|]. intros n.
    apply silent_for_range. intros j.
    apply silent_bind; [intros self; reflexivity|]. intros _.
    apply silent_interpret_with. now apply (Forall_silent _ block).
  - discriminate Hp.
Qed.

(** A program without a print statement prints nothing: interpreting
    statements none of which contains a [PRINT] node leaves the output as
    it was, whether they return or raise. *)
Theorem no_print_no_output (ast : list stmt) (self : Interpreter.t) :
  existsb prints ast = false ->
  stdout (snd (interpret ast self)) = stdout self.
Proof.
  intros H. apply silent_interpret_with.
  apply (Forall_silent _ ast); [|exact H].
  apply Forall_forall. intros node _. apply silent_execute.
Qed.

Lemma no_print_no_output_witness :
  stdout
    (snd (interpret
            [DECLARE (TStr "int") (TStr "x")
               (Some (OPERATION (TStr "/") (Atom "NUMBER" (TInt 1))
                        (Atom "NUMBER" (TInt 0))))]
            (mk ∅ [VInt 7])))
  = [VInt 7].
Proof. apply no_print_no_output. reflexivity. Defined.

Lemma interpret_app_eq a b self :
  interpret (a ++ b) self = (interpret a ;;; interpret b) self.
Proof.
  unfold interpret. revert self. induction a as [|node a IH]; intros self.
  - reflexivity.
  - change (interpret_with execute ((node :: a) ++ b))
      with (execute node ;;; interpret_with execute (a ++ b)).
    change (interpret_with execute (node :: a))
      with (execute node ;;; interpret_with execute a).
    unfold bind. destruct (execute node self) as [[[]|err] s1]; [|reflexivity].
    rewrite IH. reflexivity.
Qed.

(** Statements run one after the other: interpreting two lists of
    statements in a row is interpreting the first and then, from where it
    ended, the second; when the first raises, nothing of the second runs. *)
Theorem interpret_app (a b : list stmt) (self : Interpreter.t) :
  interpret (a ++ b) self = (interpret a ;;; interpret b) self
  /\ (forall e, fst (interpret a self) = Err e ->
                interpret (a ++ b) self = interpret a self).
Proof.
  split; [apply interpret_app_eq|].
  intros e He. rewrite interpret_app_eq. unfold bind.
  destruct (interpret a self) as [[[]|err] s1]; [discriminate | reflexivity].
Qed.

Lemma interpret_app_witness :
  interpret ([PRINT (Atom "NUMBER" (TInt 1));
              PRINT (OPERATION (TStr "-") (Atom "STRING" (TStr "a"))
                       (Atom "NUMBER" (TInt 1)))]
             ++ [PRINT (Atom "NUMBER" (TInt 2))]) init
  = (Err TypeError, mk ∅ [VInt 1]).
Proof.
  destruct (interpret_app
              [PRINT (Atom "NUMBER" (TInt 1));
               PRINT (OPERATION (TStr "-") (Atom "STRING" (TStr "a"))
                        (Atom "NUMBER" (TInt 1)))]
              [PRINT (Atom "NUMBER" (TInt 2))] init) as [_ H].
  rewrite (H TypeError); reflexivity.
Defined.

(** An operator that is none of the ten [apply_operation] knows, such as
    the token [+-] the lexer accepts, raises the error that names it,
    whatever the operands. *)
Theorem unknown_operator_raises
    (op : tokval) (l r : value) (self : Interpreter.t) :
  Forall (fun known => op <> TStr known) operators ->
  apply_operation op l r self
  = (Err (RuntimeError ("Unknown operator: " ++ Py.format op)), self).
Proof.
  intros H. unfold operators in H.
  repeat match goal with
         | H : Forall _ (_ :: _) |- _ =>
             let H1 := fresh "Hop" in
             apply Forall_cons in H as [H1 H]
         end.
  unfold apply_operation, op_is.
  rewrite !bool_decide_eq_false_2 by assumption. reflexivity.
Qed.

Lemma unknown_operator_raises_witness :
  apply_operation (TStr "+-") (VInt 1) (VInt 2) init
  = (Err (RuntimeError "Unknown operator: +-"), init).
Proof.
  apply (unknown_operator_raises (TStr "+-")).
  repeat constructor; discriminate.
Defined.

Lemma for_range_print ident e v count :
  (forall s, fst (evaluate e s) = Ok v) -> printable v = true ->
  forall i self,
    for_range (fun i => assign ident (VInt i) ;;;
                        interpret [PRINT e]) i count self
    = (Ok tt,
       mk (match count with
           | O => variables self
           | S c => <[ident := VInt (i + Z.of_nat c)]> (variables self)
           end)
          (stdout self ++ repeat v count)).
Proof.
  intros He Hp. induction count as [|count IH]; intros i self.
  - simpl. rewrite app_nil_r. now destruct self.
  - cbn [for_range]. unfold bind at 1.
    assert ((assign ident (VInt i) ;;; interpret [PRINT e]) self
            = (Ok tt, mk (<[ident := VInt i]> (variables self))
                        (stdout self ++ [v]))) as ->.
    { unfold bind, interpret. cbn [assign modify interpret_with execute].
      unfold bind. rewrite evaluate_pure, He. unfold print. rewrite Hp.
      reflexivity. }
    rewrite IH. cbn [variables stdout]. f_equal. f_equal.
    + destruct count as [|c].
      * now rewrite Z.add_0_r.
      * rewrite insert_insert_eq. do 2 f_equal. lia.
    + rewrite <- app_assoc. reflexivity.
Qed.

Lemma for_range_print_raises ident e v count :
  (forall s, fst (evaluate e s) = Ok v) -> printable v = false ->
  forall i self,
    for_range (fun i => assign ident (VInt i) ;;;
                        interpret [PRINT e]) i (S count) self
    = (Err ValueError, mk (<[ident := VInt i]> (variables self)) (stdout self)).
Proof.
  intros He Hp i self. cbn [for_range]. unfold bind at 1.
  assert ((assign ident (VInt i) ;;; interpret [PRINT e]) self
          = (Err ValueError,
             mk (<[ident := VInt i]> (variables self)) (stdout self))) as ->.
  { unfold bind, interpret. cbn [assign modify interpret_with execute].
    unfold bind. rewrite evaluate_pure, He. unfold print. rewrite Hp.
    reflexivity. }
  reflexivity.
Qed.

(** A loop over a single print statement: when the bound evaluates to the
    integer [n] and the printed expression to [v], whose text [str] can
    make, the loop prints [v] exactly [n] times ([n] not negative; not at
    all otherwise) and leaves the loop variable bound to [n - 1] when it
    ran. The value printed is the same in every iteration, for no
    expression can depend on the loop variable. When [str] raises on [v],
    an [int] of too many digits, the first iteration ends the loop with
    that ValueError, the loop variable bound to 0 and nothing printed. *)
Theorem loop_prints_the_same (ident : tokval) (range_expr e : expr)
    (n : Z) (v : value) (self : Interpreter.t) :
  fst (evaluate range_expr self) = Ok (VInt n) ->
  fst (evaluate e self) = Ok v ->
  execute (FOR ident range_expr [PRINT e]) self
  = if printable v || (n <=? 0) then
      (Ok tt,
       mk (if 0 <? n then <[ident := VInt (n - 1)]> (variables self)
           else variables self)
          (stdout self ++ repeat v (Z.to_nat n)))
    else
      (Err ValueError,
       mk (<[ident := VInt 0]> (variables self)) (stdout self)).
Proof.
  intros Hr He. cbn [execute]. unfold bind at 1.
  rewrite evaluate_pure, Hr. unfold bind at 1. cbn [lift Py.index Py.as_int].
  change (interpret_with execute [PRINT e]) with (interpret [PRINT e]).
  assert (forall s, fst (evaluate e s) = Ok v) as He'.
  { intros s. rewrite (evaluate_result e s self). exact He. }
  destruct (printable v) eqn:Hp; cbn [orb].
  - rewrite (for_range_print ident e v (Z.to_nat n) He' Hp).
    f_equal. f_equal. destruct (Z.to_nat n) as [|c] eqn:E.
    + assert ((0 <? n) = false) as -> by lia. reflexivity.
    + assert ((0 <? n) = true) as -> by lia. do 2 f_equal. lia.
  - destruct (n <=? 0) eqn:En.
    + assert (Z.to_nat n = 0%nat) as -> by lia.
      assert ((0 <? n) = false) as -> by lia.
      cbn [for_range repeat]. unfold ret. rewrite app_nil_r.
      now destruct self.
    + destruct (Z.to_nat n) as [|c] eqn:E; [lia|].
      apply (for_range_print_raises ident e v c He' Hp).
Qed.

Lemma loop_prints_the_same_witness :
  execute (FOR (TStr "i") (Atom "NUMBER" (TInt 3)) [PRINT (Atom "IDENT" (TStr "i"))])
    init
  = (Ok tt,
     mk (<[TStr "i" := VInt 2]> ∅)
        (repeat (VTuple [TStr "IDENT"; TStr "i"]) 3)).
Proof.
  rewrite (loop_prints_the_same (TStr "i") (Atom "NUMBER" (TInt 3))
             (Atom "IDENT" (TStr "i")) 3 (VTuple [TStr "IDENT"; TStr "i"]));
    reflexivity.
Defined.

End InterpreterMore.
